(** * pi-camera-stream: the frame broadcaster and its viewer sessions

    A shallow embedding of [main.go] (the registry based broadcaster) and
    of the older recording variant of [frameBroadcaster] that pipes every
    frame into an ffmpeg subprocess.

    The program is concurrent: one goroutine runs [frameBroadcaster], one
    goroutine per HTTP request runs [imageServ] or [resetCameraWeb].  It is
    modelled as an interleaving of atomic steps.  Every goroutine carries a
    program counter naming the source line it is about to execute; a step
    function executes that line on the shared state.  Choices made by the
    environment (which goroutine runs, whether a write to the network
    succeeds, whether the device opens) are the labels of the steps.  Line
    numbers are those of [main.go]. *)

From Stdlib Require Import Ascii.
From stdpp Require Import gmap list strings.

Open Scope string_scope.
Open Scope list_scope.
Open Scope nat_scope.
Open Scope stdpp_scope.

(** ** Data *)

(** A frame is a [[]byte]. *)
Definition Frame : Type := list Byte.byte.

(** [type ClientChan chan []byte]: a buffered Go channel.  [buf] holds the
    queued frames, oldest first, [cap] is the capacity given to [make] and
    [closed] is set by [close].  [offered] is a history variable, not part of
    the Go value: it records every frame for which a send was attempted on
    this channel, whether it was queued or dropped. *)
Record Chan : Type := MkChan {
  buf : list Frame;
  cap : nat;
  closed : bool;
  offered : list Frame
}.

(** A [*device.Device] of go4vl, as far as this program observes it: the
    frames waiting in the channel returned by [GetOutput], and whether the
    device is still streaming.  [Close] stops the stream loop, which closes
    the output channel, so [streaming = false] also reads "output channel
    closed". *)
Record Device : Type := MkDevice {
  output : list Frame;
  streaming : bool
}.

(** What [device.Open] followed by [camera.Start] may do, with the text of
    the library's error. *)
Inductive SetupOutcome : Type :=
| OpenFail (e : string)
| StartFail (e : string)
| SetupOk.

(** How the process stands. [Exited] is [log.Fatal]: the diagnostic is
    printed and the process exits with status 1. [Panicked] is a run-time
    panic of a goroutine, which also ends the process. *)
Inductive Status : Type :=
| Running
| Exited (diag : string)
| Panicked (msg : string).

(** Who took [clientsMutex].  Go's mutex is a single bit; the tag is kept to
    say which goroutine is inside the critical section. *)
Inductive Owner : Type :=
| OBcast
| OSess (i : nat).

(** Program counter of [frameBroadcaster].  [src] is the local variable
    [frames], identified by the device whose output channel it is. *)
Inductive BPC : Type :=
| BStart                                        (* before line 52 *)
| BRange (src : nat)                            (* line 53, receiving from frames *)
| BLock (src : nat) (f : Frame)                 (* line 60, before Lock *)
| BFan (src : nat) (f : Frame) (todo : gset nat)  (* lines 61-68, lock held *)
| BDone.                                        (* frames closed, function returned *)

(** Program counter of one [imageServ] call. *)
Inductive SPC : Type :=
| SRegLock      (* line 82 *)
| SRegInsert    (* line 83 *)
| SRegUnlock    (* line 84 *)
| SLoop         (* lines 102-122 *)
| SDelLock      (* line 87, the deferred function *)
| SDelDelete    (* line 88 *)
| SDelUnlock    (* line 89 *)
| SClose        (* lines 90-91 *)
| SExit.

(** One [imageServ] call: its program counter, its local [clientChan], the
    remote address of the request and the parts written to the response so
    far. *)
Record Session : Type := MkSession {
  spc : SPC;
  chan : nat;
  addr : string;
  out : list Frame
}.

(** What happens to a session at its [select]: a frame is received and
    written, [CreatePart] fails, [part.Write] fails, or the request context
    is done. *)
Inductive IO : Type :=
| IoOk
| IoCreatePartFail (e : string)
| IoWriteFail (e : string)
| IoCancelled.

(** The globals of the program and its goroutines.  [heap] holds the channels
    made so far, a channel is named by its index.  [published] is a history
    variable: the frames for which the broadcaster started the fan-out, in
    order. *)
Record State : Type := MkState {
  status : Status;
  cameraDevice : option nat;
  devices : list Device;
  heap : list Chan;
  clients : gset nat;
  mutex : option Owner;
  bcast : BPC;
  sessions : list Session;
  logs : list string;
  stdout : list string;
  responses : list string;
  published : list Frame
}.

(** Field updates. *)
Definition set_status (x : Status) (σ : State) : State :=
  MkState x (cameraDevice σ) (devices σ) (heap σ) (clients σ) (mutex σ)
    (bcast σ) (sessions σ) (logs σ) (stdout σ) (responses σ) (published σ).
Definition set_cameraDevice (x : option nat) (σ : State) : State :=
  MkState (status σ) x (devices σ) (heap σ) (clients σ) (mutex σ)
    (bcast σ) (sessions σ) (logs σ) (stdout σ) (responses σ) (published σ).
Definition set_devices (x : list Device) (σ : State) : State :=
  MkState (status σ) (cameraDevice σ) x (heap σ) (clients σ) (mutex σ)
    (bcast σ) (sessions σ) (logs σ) (stdout σ) (responses σ) (published σ).
Definition set_heap (x : list Chan) (σ : State) : State :=
  MkState (status σ) (cameraDevice σ) (devices σ) x (clients σ) (mutex σ)
    (bcast σ) (sessions σ) (logs σ) (stdout σ) (responses σ) (published σ).
Definition set_clients (x : gset nat) (σ : State) : State :=
  MkState (status σ) (cameraDevice σ) (devices σ) (heap σ) x (mutex σ)
    (bcast σ) (sessions σ) (logs σ) (stdout σ) (responses σ) (published σ).
Definition set_mutex (x : option Owner) (σ : State) : State :=
  MkState (status σ) (cameraDevice σ) (devices σ) (heap σ) (clients σ) x
    (bcast σ) (sessions σ) (logs σ) (stdout σ) (responses σ) (published σ).
Definition set_bcast (x : BPC) (σ : State) : State :=
  MkState (status σ) (cameraDevice σ) (devices σ) (heap σ) (clients σ) (mutex σ)
    x (sessions σ) (logs σ) (stdout σ) (responses σ) (published σ).
Definition set_sessions (x : list Session) (σ : State) : State :=
  MkState (status σ) (cameraDevice σ) (devices σ) (heap σ) (clients σ) (mutex σ)
    (bcast σ) x (logs σ) (stdout σ) (responses σ) (published σ).
Definition add_log (x : string) (σ : State) : State :=
  MkState (status σ) (cameraDevice σ) (devices σ) (heap σ) (clients σ) (mutex σ)
    (bcast σ) (sessions σ) (logs σ ++ [x]) (stdout σ) (responses σ) (published σ).
Definition add_stdout (x : string) (σ : State) : State :=
  MkState (status σ) (cameraDevice σ) (devices σ) (heap σ) (clients σ) (mutex σ)
    (bcast σ) (sessions σ) (logs σ) (stdout σ ++ [x]) (responses σ) (published σ).
Definition add_response (x : string) (σ : State) : State :=
  MkState (status σ) (cameraDevice σ) (devices σ) (heap σ) (clients σ) (mutex σ)
    (bcast σ) (sessions σ) (logs σ) (stdout σ) (responses σ ++ [x]) (published σ).
Definition add_published (x : Frame) (σ : State) : State :=
  MkState (status σ) (cameraDevice σ) (devices σ) (heap σ) (clients σ) (mutex σ)
    (bcast σ) (sessions σ) (logs σ) (stdout σ) (responses σ) (published σ ++ [x]).

Definition set_spc (p : SPC) (s : Session) : Session :=
  MkSession p (chan s) (addr s) (out s).
Definition add_out (f : Frame) (s : Session) : Session :=
  MkSession (spc s) (chan s) (addr s) (out s ++ [f]).

(** ** Channels *)

(** [make(ClientChan, n)] *)
Definition make_chan (n : nat) : Chan := MkChan [] n false [].

(** The [select] of lines 62-66: [case clientChan <- frame:] with an empty
    [default:].  A send on a closed channel panics ([None]); otherwise the
    frame is queued when there is room and the default branch is taken when
    there is none. *)
Definition try_send (f : Frame) (ch : Chan) : option Chan :=
  if closed ch then None
  else if (length (buf ch) <? cap ch)%nat
       then Some (MkChan (buf ch ++ [f]) (cap ch) false (offered ch ++ [f]))
       else Some (MkChan (buf ch) (cap ch) false (offered ch ++ [f])).

(** [close(clientChan)]; closing twice panics. *)
Definition close_chan (ch : Chan) : option Chan :=
  if closed ch then None else Some (MkChan (buf ch) (cap ch) true (offered ch)).

(** ** setupCamera and restartCamera *)

(** [setupCamera]: the devices after the call and the result, a device or
    an error.  A device that opened but did not start is closed again. *)
Definition setupCamera (o : SetupOutcome) (ds : list Device)
  : list Device * (nat + string) :=
  match o with
  | OpenFail e => (ds, inr ("failed to open device: " +:+ e))
  | StartFail e => (ds ++ [MkDevice [] false], inr ("camera start: " +:+ e))
  | SetupOk => (ds ++ [MkDevice [] true], inl (length ds))
  end.

(** [camera.Close()] *)
Definition close_device (d : nat) (ds : list Device) : list Device :=
  match ds !! d with
  | Some dev => <[d := MkDevice (output dev) false]> ds
  | None => ds
  end.

(** [restartCamera] *)
Definition restartCamera (o : SetupOutcome) (σ : State) : State :=
  let σ1 :=
    match cameraDevice σ with
    | Some d => set_devices (close_device d (devices σ)) σ
    | None => σ
    end in
  match setupCamera o (devices σ1) with
  | (ds, inl d) => set_cameraDevice (Some d) (set_devices ds σ1)
  | (ds, inr err) =>
      add_log ("failed to restart camera: " +:+ err)
        (set_cameraDevice None (set_devices ds σ1))
  end.

(** [resetCameraWeb]: the handler of [/restart]. *)
Definition resetCameraWeb (o : SetupOutcome) (σ : State) : State :=
  add_response "Camera restarted."
    (restartCamera o (add_stdout "Restarting camera" σ)).

(** ** frameBroadcaster *)

(** The panic of line 52 when [cameraDevice] is nil. *)
Definition nil_deref : string :=
  "runtime error: invalid memory address or nil pointer dereference".

(** One step of the broadcaster: line 52 binds [frames]; line 53 receives
    the next frame, or ends the loop when the channel is closed and empty,
    and lines 55-58 skip an empty frame; line 60 takes the lock; lines 61-67
    offer the frame to one more key of [clients]; line 68 releases the lock.
    [pick] is the key the [range] over the map yields next; Go leaves the
    order open. *)
Definition frameBroadcaster (pick : nat) (σ : State) : option State :=
  match bcast σ with
  | BStart =>
      match cameraDevice σ with
      | Some d => Some (set_bcast (BRange d) σ)
      | None => Some (set_status (Panicked nil_deref) σ)
      end
  | BRange src =>
      dev ← devices σ !! src;
      match output dev with
      | f :: rest =>
          let σ1 := set_devices (<[src := MkDevice rest (streaming dev)]> (devices σ)) σ in
          if (length f =? 0)%nat
          then Some (add_log "Received empty frame, skipping..." σ1)
          else Some (set_bcast (BLock src f) σ1)
      | [] => if streaming dev then None else Some (set_bcast BDone σ)
      end
  | BLock src f =>
      match mutex σ with
      | None =>
          Some (set_bcast (BFan src f (clients σ))
                  (set_mutex (Some OBcast) (add_published f σ)))
      | Some _ => None
      end
  | BFan src f todo =>
      if decide (todo = ∅) then
        match mutex σ with
        | Some _ => Some (set_bcast (BRange src) (set_mutex None σ))
        | None => Some (set_status (Panicked "sync: unlock of unlocked mutex") σ)
        end
      else if decide (pick ∈ todo) then
        ch ← heap σ !! pick;
        match try_send f ch with
        | Some ch' =>
            Some (set_bcast (BFan src f (todo ∖ {[pick]}))
                    (set_heap (<[pick := ch']> (heap σ)) σ))
        | None => Some (set_status (Panicked "send on closed channel") σ)
        end
      else None
  | BDone => None
  end.

(** ** imageServ *)

(** Session [i] becomes [s]. *)
Definition upd_sess (i : nat) (s : Session) (σ : State) : State :=
  set_sessions (<[i := s]> (sessions σ)) σ.

(** A new request on [/stream]: line 80 and the [make] of line 81. *)
Definition connect (a : string) (σ : State) : State :=
  set_sessions (sessions σ ++ [MkSession SRegLock (length (heap σ)) a []])
    (set_heap (heap σ ++ [make_chan 30])
       (add_stdout ("Client connected " +:+ a) σ)).

(** One step of session [i]: lines 82-84 register the channel; the [select]
    of lines 102-122 receives a frame and writes it as one part, or leaves
    the loop on a closed channel, a failed [CreatePart], a failed [Write] or
    a cancelled request; the deferred function of lines 86-92 deletes the
    key under the lock and then closes the channel.  The bytes of the
    multipart encoding are not modelled: [out] lists the frames written,
    and the deferred [mimeWriter.Close()], which writes no frame, is left
    out. *)
Definition imageServ (i : nat) (io : IO) (σ : State) : option State :=
  s ← sessions σ !! i;
  match spc s with
  | SRegLock =>
      match mutex σ with
      | None => Some (upd_sess i (set_spc SRegInsert s) (set_mutex (Some (OSess i)) σ))
      | Some _ => None
      end
  | SRegInsert =>
      Some (upd_sess i (set_spc SRegUnlock s) (set_clients ({[chan s]} ∪ clients σ) σ))
  | SRegUnlock =>
      match mutex σ with
      | Some _ => Some (upd_sess i (set_spc SLoop s) (set_mutex None σ))
      | None => Some (set_status (Panicked "sync: unlock of unlocked mutex") σ)
      end
  | SLoop =>
      match io with
      | IoCancelled => Some (upd_sess i (set_spc SDelLock s) σ)
      | _ =>
          ch ← heap σ !! chan s;
          match buf ch with
          | f :: rest =>
              let σ1 := set_heap (<[chan s := MkChan rest (cap ch) (closed ch) (offered ch)]> (heap σ)) σ in
              match io with
              | IoCreatePartFail e =>
                  Some (upd_sess i (set_spc SDelLock s) (add_log ("CreatePart failed: " +:+ e) σ1))
              | IoWriteFail e =>
                  Some (upd_sess i (set_spc SDelLock s) (add_log ("Write failed: " +:+ e) σ1))
              | _ => Some (upd_sess i (add_out f s) σ1)
              end
          | [] =>
              if closed ch then Some (upd_sess i (set_spc SDelLock s) σ) else None
          end
      end
  | SDelLock =>
      match mutex σ with
      | None => Some (upd_sess i (set_spc SDelDelete s) (set_mutex (Some (OSess i)) σ))
      | Some _ => None
      end
  | SDelDelete =>
      Some (upd_sess i (set_spc SDelUnlock s) (set_clients (clients σ ∖ {[chan s]}) σ))
  | SDelUnlock =>
      match mutex σ with
      | Some _ => Some (upd_sess i (set_spc SClose s) (set_mutex None σ))
      | None => Some (set_status (Panicked "sync: unlock of unlocked mutex") σ)
      end
  | SClose =>
      ch ← heap σ !! chan s;
      match close_chan ch with
      | Some ch' =>
          Some (upd_sess i (set_spc SExit s)
                  (add_stdout ("Client disconnected " +:+ addr s)
                     (set_heap (<[chan s := ch']> (heap σ)) σ)))
      | None => Some (set_status (Panicked "close of closed channel") σ)
      end
  | SExit => None
  end.

(** ** The whole program *)

(** The device driver delivers frame [f] on the output channel of device
    [d]; only a streaming device does. *)
Definition capture (d : nat) (f : Frame) (σ : State) : option State :=
  dev ← devices σ !! d;
  if streaming dev
  then Some (set_devices (<[d := MkDevice (output dev ++ [f]) true]> (devices σ)) σ)
  else None.

(** What can happen next: a step of the broadcaster, a new request on
    [/stream], a step of a session, a request on [/restart], a frame from
    the driver. *)
Inductive Action : Type :=
| ABcast (pick : nat)
| AConnect (a : string)
| ASess (i : nat) (io : IO)
| ARestart (o : SetupOutcome)
| ACapture (d : nat) (f : Frame).

(** Nothing runs once the process has exited or panicked. *)
Definition step (a : Action) (σ : State) : option State :=
  match status σ with
  | Running =>
      match a with
      | ABcast pick => frameBroadcaster pick σ
      | AConnect ad => Some (connect ad σ)
      | ASess i io => imageServ i io σ
      | ARestart o => Some (resetCameraWeb o σ)
      | ACapture d f => capture d f σ
      end
  | _ => None
  end.

(** A run of the program along a schedule. *)
Fixpoint run (acts : list Action) (σ : State) : option State :=
  match acts with
  | [] => Some σ
  | a :: acts' => σ' ← step a σ; run acts' σ'
  end.

(** [main]: the first [setupCamera], the [go frameBroadcaster()] and
    [http.ListenAndServe].  [port] is the value of the flag [-p], [listen] is
    the error of [ListenAndServe] when it cannot bind the port. *)
Definition main (port : string) (o : SetupOutcome) (listen : option string) : State :=
  match setupCamera o [] with
  | (ds, inr err) =>
      MkState (Exited ("failed to initialize camera: " +:+ err)) None ds [] ∅ None
        BStart [] ["failed to initialize camera: " +:+ err] [] [] []
  | (ds, inl d) =>
      let st := match listen with Some e => Exited e | None => Running end in
      MkState st (Some d) ds [] ∅ None BStart []
        (("Serving images on [" +:+ port +:+ "/stream]")
           :: match listen with Some e => [e] | None => [] end)
        [] [] []
  end.

(** ** Invariants of the reachable states *)

(** Program counters inside the critical section of [clientsMutex]. *)
Definition crit (p : SPC) : bool :=
  match p with
  | SRegInsert | SRegUnlock | SDelDelete | SDelUnlock => true
  | _ => false
  end.

(** Program counters at which the session's channel is a key of [clients]. *)
Definition registered (p : SPC) : bool :=
  match p with
  | SRegUnlock | SLoop | SDelLock | SDelDelete => true
  | _ => false
  end.

(** Program counters before the insert of line 83. *)
Definition fresh_pc (p : SPC) : bool :=
  match p with
  | SRegLock | SRegInsert => true
  | _ => false
  end.

(** The frame the broadcaster still has to offer to channel [c] in the
    fan-out it is in, if any. *)
Definition pending (σ : State) (c : nat) : list Frame :=
  match bcast σ with
  | BFan _ f todo => if decide (c ∈ todo) then [f] else []
  | _ => []
  end.

(** The broadcaster is inside the [range clients] loop. *)
Definition in_fan (b : BPC) : bool :=
  match b with BFan _ _ _ => true | _ => false end.

(** Channels and sessions are made together: session [i] owns channel [i]. *)
Record inv_shape (σ : State) : Prop := {
  shape_len : length (heap σ) = length (sessions σ);
  shape_chan : ∀ i s, sessions σ !! i = Some s → chan s = i
}.

(** The mutex is held exactly by the goroutine that is inside its critical
    section. *)
Record inv_mutex (σ : State) : Prop := {
  mutex_bcast : mutex σ = Some OBcast ↔ in_fan (bcast σ) = true;
  mutex_sess : ∀ i s, sessions σ !! i = Some s →
    (mutex σ = Some (OSess i) ↔ crit (spc s) = true);
  mutex_valid : ∀ i, mutex σ = Some (OSess i) → is_Some (sessions σ !! i)
}.

(** The registry holds exactly the channels of the sessions between their
    insert and their delete; a channel is closed exactly when its session
    has run its [close]; the fan-out only visits registered channels. *)
Record inv_registry (σ : State) : Prop := {
  reg_clients : ∀ c, c ∈ clients σ ↔
    ∃ s, sessions σ !! c = Some s ∧ registered (spc s) = true;
  reg_closed : ∀ i s ch, sessions σ !! i = Some s → heap σ !! i = Some ch →
    (closed ch = true ↔ spc s = SExit);
  reg_todo : ∀ src f todo, bcast σ = BFan src f todo → todo ⊆ clients σ
}.

(** The history of a channel. *)
Record inv_hist (σ : State) : Prop := {
  hist_fresh : ∀ i s ch, sessions σ !! i = Some s → heap σ !! i = Some ch →
    fresh_pc (spc s) = true → offered ch = [];
  hist_out : ∀ i s ch, sessions σ !! i = Some s → heap σ !! i = Some ch →
    out s ++ buf ch `sublist_of` offered ch;
  hist_sub : ∀ c ch, heap σ !! c = Some ch →
    offered ch ++ pending σ c `sublist_of` published σ;
  hist_suffix : ∀ c ch, heap σ !! c = Some ch → c ∈ clients σ →
    offered ch ++ pending σ c `suffix_of` published σ
}.

(** All of them together. *)
Record inv (σ : State) : Prop := {
  inv_s : inv_shape σ;
  inv_m : inv_mutex σ;
  inv_r : inv_registry σ;
  inv_h : inv_hist σ
}.

(** ** The steps, branch by branch *)

(** The steps of the broadcaster, one constructor per branch of
    [frameBroadcaster]. *)
Inductive bcast_case (pick : nat) (σ : State) : State → Prop :=
| BC_start d :
    bcast σ = BStart → cameraDevice σ = Some d →
    bcast_case pick σ (set_bcast (BRange d) σ)
| BC_panic msg :
    bcast_case pick σ (set_status (Panicked msg) σ)
| BC_skip src ds :
    bcast σ = BRange src →
    bcast_case pick σ (add_log "Received empty frame, skipping..." (set_devices ds σ))
| BC_recv src f ds :
    bcast σ = BRange src → length f ≠ 0 →
    bcast_case pick σ (set_bcast (BLock src f) (set_devices ds σ))
| BC_done src :
    bcast σ = BRange src →
    bcast_case pick σ (set_bcast BDone σ)
| BC_lock src f :
    bcast σ = BLock src f → mutex σ = None →
    bcast_case pick σ
      (set_bcast (BFan src f (clients σ)) (set_mutex (Some OBcast) (add_published f σ)))
| BC_unlock src f o :
    bcast σ = BFan src f ∅ → mutex σ = Some o →
    bcast_case pick σ (set_bcast (BRange src) (set_mutex None σ))
| BC_send src f todo ch ch' :
    bcast σ = BFan src f todo → pick ∈ todo →
    heap σ !! pick = Some ch → try_send f ch = Some ch' →
    bcast_case pick σ
      (set_bcast (BFan src f (todo ∖ {[pick]})) (set_heap (<[pick := ch']> (heap σ)) σ)).

(** The steps of a session, one constructor per branch of [imageServ]. *)
Inductive sess_case (i : nat) (σ : State) : State → Prop :=
| SC_panic msg :
    sess_case i σ (set_status (Panicked msg) σ)
| SC_reg_lock s :
    sessions σ !! i = Some s → spc s = SRegLock → mutex σ = None →
    sess_case i σ (upd_sess i (set_spc SRegInsert s) (set_mutex (Some (OSess i)) σ))
| SC_reg_insert s :
    sessions σ !! i = Some s → spc s = SRegInsert →
    sess_case i σ (upd_sess i (set_spc SRegUnlock s) (set_clients ({[chan s]} ∪ clients σ) σ))
| SC_reg_unlock s o :
    sessions σ !! i = Some s → spc s = SRegUnlock → mutex σ = Some o →
    sess_case i σ (upd_sess i (set_spc SLoop s) (set_mutex None σ))
| SC_leave s :
    sessions σ !! i = Some s → spc s = SLoop →
    sess_case i σ (upd_sess i (set_spc SDelLock s) σ)
| SC_write s ch f rest :
    sessions σ !! i = Some s → spc s = SLoop →
    heap σ !! chan s = Some ch → buf ch = f :: rest →
    sess_case i σ
      (upd_sess i (add_out f s)
         (set_heap (<[chan s := MkChan rest (cap ch) (closed ch) (offered ch)]> (heap σ)) σ))
| SC_write_fail s ch f rest msg :
    sessions σ !! i = Some s → spc s = SLoop →
    heap σ !! chan s = Some ch → buf ch = f :: rest →
    sess_case i σ
      (upd_sess i (set_spc SDelLock s)
         (add_log msg
            (set_heap (<[chan s := MkChan rest (cap ch) (closed ch) (offered ch)]> (heap σ)) σ)))
| SC_del_lock s :
    sessions σ !! i = Some s → spc s = SDelLock → mutex σ = None →
    sess_case i σ (upd_sess i (set_spc SDelDelete s) (set_mutex (Some (OSess i)) σ))
| SC_del_delete s :
    sessions σ !! i = Some s → spc s = SDelDelete →
    sess_case i σ (upd_sess i (set_spc SDelUnlock s) (set_clients (clients σ ∖ {[chan s]}) σ))
| SC_del_unlock s o :
    sessions σ !! i = Some s → spc s = SDelUnlock → mutex σ = Some o →
    sess_case i σ (upd_sess i (set_spc SClose s) (set_mutex None σ))
| SC_close s ch :
    sessions σ !! i = Some s → spc s = SClose →
    heap σ !! chan s = Some ch → closed ch = false →
    sess_case i σ
      (upd_sess i (set_spc SExit s)
         (add_stdout ("Client disconnected " +:+ addr s)
            (set_heap (<[chan s := MkChan (buf ch) (cap ch) true (offered ch)]> (heap σ)) σ))).


(** ** The recording variant of frameBroadcaster

    The older [frameBroadcaster] starts an ffmpeg subprocess, writes every
    frame to its standard input and offers the frame to the single channel
    [encodedFrameChan], which all viewers read.  Each iteration of its loop
    is given what the environment does during it. *)
Module Recorder.

(** One iteration of [for frame := range frames]: the frame received, the
    error of [ffmpegIn.Write] if it fails, the minute and second of
    [time.Now()], what [setupCamera] does should the camera be restarted in
    this iteration, and how many frames the viewers took from
    [encodedFrameChan] since the previous iteration. *)
Record Iter : Type := MkIter {
  frame : Frame;
  write_err : option string;
  minute : nat;
  second : nat;
  reopen : SetupOutcome;
  drained : nat
}.

(** [ffmpegIn] holds the frames written to the pipe so far. *)
Record RState : Type := MkRState {
  rstatus : Status;
  encodedFrameChan : list Frame;
  ffmpegIn : list Frame;
  rlogs : list string;
  rstdout : list string;
  rcamera : option nat;
  rdevices : list Device
}.

Definition rlog (x : string) (st : RState) : RState :=
  MkRState (rstatus st) (encodedFrameChan st) (ffmpegIn st) (rlogs st ++ [x])
    (rstdout st) (rcamera st) (rdevices st).

(** [restartCamera], the same code as in [main.go]. *)
Definition restartCamera (o : SetupOutcome) (st : RState) : RState :=
  let ds1 :=
    match rcamera st with
    | Some d => close_device d (rdevices st)
    | None => rdevices st
    end in
  match setupCamera o ds1 with
  | (ds, inl d) =>
      MkRState (rstatus st) (encodedFrameChan st) (ffmpegIn st) (rlogs st)
        (rstdout st) (Some d) ds
  | (ds, inr err) =>
      MkRState (rstatus st) (encodedFrameChan st) (ffmpegIn st)
        (rlogs st ++ ["failed to restart camera: " +:+ err])
        (rstdout st) None ds
  end.

(** The [select] on [encodedFrameChan], a channel of capacity 10. *)
Definition offer (f : Frame) (st : RState) : RState :=
  if length (encodedFrameChan st) <? 10
  then MkRState (rstatus st) (encodedFrameChan st ++ [f]) (ffmpegIn st) (rlogs st)
         (rstdout st) (rcamera st) (rdevices st)
  else rlog "Frame channel full, dropping frame to keep up with the camera." st.

(** The restart "every 30 minutes". *)
Definition maintenance (it : Iter) (st : RState) : RState :=
  if ((minute it =? 30) || (minute it =? 0)) && ((0 <=? second it) && (second it <=? 2))
  then restartCamera (reopen it)
         (MkRState (rstatus st) (encodedFrameChan st) (ffmpegIn st) (rlogs st)
            (rstdout st ++ ["Restarting Camera..."]) (rcamera st) (rdevices st))
  else st.

(** What the viewers did in the meantime. *)
Definition drain (n : nat) (st : RState) : RState :=
  MkRState (rstatus st) (drop n (encodedFrameChan st)) (ffmpegIn st) (rlogs st)
    (rstdout st) (rcamera st) (rdevices st).

(** The loop.  The result is the state when the function returns and the
    iterations it did not get to. *)
Fixpoint broadcast_loop (its : list Iter) (st : RState) : RState * list Iter :=
  match its with
  | [] => (st, [])
  | it :: rest =>
      let st := drain (drained it) st in
      if length (frame it) =? 0
      then broadcast_loop rest (rlog "Received empty frame, skipping..." st)
      else
        match write_err it with
        | Some e => (rlog ("Failed to write frame to FFmpeg: " +:+ e) st, rest)
        | None =>
            let st1 :=
              MkRState (rstatus st) (encodedFrameChan st) (ffmpegIn st ++ [frame it])
                (rlogs st) (rstdout st) (rcamera st) (rdevices st) in
            broadcast_loop rest (maintenance it (offer (frame it) st1))
        end
  end.

(** [frameBroadcaster]: [pipe_err] and [start_err] are the errors of
    [cmd.StdinPipe()] and [cmd.Start()], fatal when present. *)
Definition frameBroadcaster (pipe_err start_err : option string)
    (its : list Iter) (st : RState) : RState * list Iter :=
  match pipe_err with
  | Some e =>
      (MkRState (Exited ("Failed to create FFmpeg stdin pipe: " +:+ e))
         (encodedFrameChan st) (ffmpegIn st)
         (rlogs st ++ ["Failed to create FFmpeg stdin pipe: " +:+ e])
         (rstdout st) (rcamera st) (rdevices st), its)
  | None =>
      match start_err with
      | Some e =>
          (MkRState (Exited ("Failed to start FFmpeg process: " +:+ e))
             (encodedFrameChan st) (ffmpegIn st)
             (rlogs st ++ ["Failed to start FFmpeg process: " +:+ e])
             (rstdout st) (rcamera st) (rdevices st), its)
      | None => broadcast_loop its st
      end
  end.

End Recorder.

(** What a queue looks like after the broadcaster has offered it [f]. *)
Definition enqueued (f : Frame) (ch ch' : Chan) : Prop :=
  cap ch' = cap ch ∧ closed ch' = closed ch ∧
  buf ch' = if length (buf ch) <? cap ch then buf ch ++ [f] else buf ch.

(** The schedule in which the broadcaster runs one publish on its own:
    [Lock], one [select] per key of the map, [Unlock]. *)
Definition publish_acts (σ : State) : list Action :=
  ABcast 0 :: (ABcast <$> elements (clients σ)) ++ [ABcast 0].

(** ** More properties of states *)

(** The frames the broadcaster publishes are not empty. *)
Record inv_nonempty (σ : State) : Prop := {
  ne_published : ∀ f, f ∈ published σ → length f ≠ 0;
  ne_lock : ∀ src f, bcast σ = BLock src f → length f ≠ 0
}.



(** The device whose output channel the broadcaster reads: the value of
    its local variable [frames]. *)
Definition bsrc (b : BPC) : option nat :=
  match b with
  | BRange src | BLock src _ | BFan src _ _ => Some src
  | BStart | BDone => None
  end.

(** An iteration of the recording variant in which the write to ffmpeg
    does not fail: the frame is empty and skipped before the write, or the
    write succeeds. *)
Definition healthy (it : Recorder.Iter) : Prop :=
  length (Recorder.frame it) = 0 ∨ Recorder.write_err it = None.

(** ** Concrete runs *)

(** Two frames. *)
Definition f1 : Frame := [Byte.xff; Byte.xd8; Byte.x01].
Definition f2 : Frame := [Byte.xff; Byte.xd8; Byte.x02].

(** A viewer connects and registers, the device delivers [f1], the
    broadcaster receives it and takes the lock. *)
Definition acts_fan : list Action :=
  [ABcast 0; AConnect "10.0.0.2:5000"; ASess 0 IoOk; ASess 0 IoOk; ASess 0 IoOk;
   ACapture 0 f1; ABcast 0; ABcast 0].

(** The state [acts_fan] leads to. *)
Definition in_fan_out : State :=
  MkState Running (Some 0) [MkDevice [] true] [make_chan 30] {[0]} (Some OBcast)
    (BFan 0 f1 {[0]}) [MkSession SLoop 0 "10.0.0.2:5000" []]
    ["Serving images on [:8080/stream]"] ["Client connected 10.0.0.2:5000"] [] [f1].

(** The viewer of [acts_fan] receives [f1]; then the camera is restarted
    through [/restart], the new device delivers [f2], and the broadcaster
    runs again. *)
Definition acts_restart : list Action :=
  acts_fan ++
  [ABcast 0; ABcast 0; ASess 0 IoOk; ARestart SetupOk; ACapture 1 f2; ABcast 0].

(** The state [acts_restart] leads to: the new device streams and holds
    [f2], the viewer is registered and waits, the broadcaster has
    returned. *)
Definition starved : State :=
  MkState Running (Some 1) [MkDevice [] false; MkDevice [f2] true]
    [MkChan [] 30 false [f1]] {[0]} None BDone
    [MkSession SLoop 0 "10.0.0.2:5000" [f1]]
    ["Serving images on [:8080/stream]"]
    ["Client connected 10.0.0.2:5000"; "Restarting camera"]
    ["Camera restarted."] [f1].

(** Two iterations, the write of the first frame fails. *)
Definition its_fail : list Recorder.Iter :=
  [Recorder.MkIter f1 (Some "broken pipe") 10 15 SetupOk 0;
   Recorder.MkIter f2 None 10 16 SetupOk 0].

(** The recording variant before its first iteration. *)
Definition rec0 : Recorder.RState :=
  Recorder.MkRState Running [] [] [] [] (Some 0) [MkDevice [] true].

(** The [n]-th of a series of distinct frames. *)
Definition nth_frame (n : nat) : Frame := replicate (S n) Byte.xff.

(** The device delivers [f] and the broadcaster publishes it to the one
    registered viewer: receive, [Lock], [select], [Unlock]. *)
Definition publish_one (f : Frame) : list Action :=
  [ACapture 0 f; ABcast 0; ABcast 0; ABcast 0; ABcast 0].

(** A viewer registers and then never reads, while [n] frames are
    published. *)
Definition acts_stalled (n : nat) : list Action :=
  [ABcast 0; AConnect "10.0.0.2:5000"; ASess 0 IoOk; ASess 0 IoOk; ASess 0 IoOk]
  ++ mjoin (publish_one ∘ nth_frame <$> seq 0 n).

(** [acts_fan] without its last step: the broadcaster is about to take
    the lock. *)
Definition acts_lock : list Action :=
  [ABcast 0; AConnect "10.0.0.2:5000"; ASess 0 IoOk; ASess 0 IoOk; ASess 0 IoOk;
   ACapture 0 f1; ABcast 0].

(** The state [acts_lock] leads to. *)
Definition at_lock : State :=
  MkState Running (Some 0) [MkDevice [] true] [make_chan 30] {[0]} None
    (BLock 0 f1) [MkSession SLoop 0 "10.0.0.2:5000" []]
    ["Serving images on [:8080/stream]"] ["Client connected 10.0.0.2:5000"] [] [].

(** No viewer; the device has delivered an empty frame and then [f1]. *)
Definition glitch : State :=
  MkState Running (Some 0) [MkDevice [[]; f1] true] [] ∅ None (BRange 0) []
    ["Serving images on [:8080/stream]"] [] [] [].

(** No viewer; the broadcaster has received [f1]. *)
Definition idle : State :=
  MkState Running (Some 0) [MkDevice [] true] [] ∅ None (BLock 0 f1) []
    ["Serving images on [:8080/stream]"] [] [] [].

(** ** Further properties of [main.go] *)

(** Every channel was made with capacity 30 and never holds more. *)
Definition inv_cap (σ : State) : Prop :=
  ∀ c ch, heap σ !! c = Some ch → cap ch = 30 ∧ length (buf ch) ≤ cap ch.


(** The frame the broadcaster has received and not yet published. *)
Definition inflight (b : BPC) : list Frame :=
  match b with BLock _ f => [f] | _ => [] end.

(** The frames waiting in the output channel of device [d]. *)
Definition waiting (d : nat) (ds : list Device) : list Frame :=
  from_option output [] (ds !! d).

(** The frames of device [d] that are published or still to be published:
    those published, the one in flight and the non-empty ones waiting in
    the output channel. *)
Definition backlog (d : nat) (σ : State) : list Frame :=
  published σ ++ inflight (bcast σ) ++ filter (λ f, length f ≠ 0) (waiting d (devices σ)).

(** The non-empty frame an action makes device [d] deliver, if any. *)
Definition captured (d : nat) (act : Action) : list Frame :=
  match act with
  | ACapture d' f => if decide (d' = d) then filter (λ f, length f ≠ 0) [f] else []
  | _ => []
  end.

(** How far an [imageServ] call has got. *)
Definition rank (p : SPC) : nat :=
  match p with
  | SRegLock => 0 | SRegInsert => 1 | SRegUnlock => 2 | SLoop => 3
  | SDelLock => 4 | SDelDelete => 5 | SDelUnlock => 6 | SClose => 7 | SExit => 8
  end.

(** A session goes forward: its channel and address stay, its program
    counter does not go back, and what it has written is only extended,
    and not at all once it has left its loop. *)
Definition advances (s s' : Session) : Prop :=
  chan s' = chan s ∧ addr s' = addr s ∧ rank (spc s) ≤ rank (spc s') ∧
  out s `prefix_of` out s' ∧ (4 ≤ rank (spc s) → out s' = out s).

(** ** Further properties of the recording variant *)

(** The iteration falls into the restart window: minute 0 or 30 of the
    hour, second 0, 1 or 2. *)
Definition in_window (it : Recorder.Iter) : Prop :=
  (Recorder.minute it = 30 ∨ Recorder.minute it = 0) ∧ Recorder.second it ≤ 2.

(** The non-empty frames of some iterations. *)
Definition frames_of (its : list Recorder.Iter) : list Frame :=
  filter (λ f, length f ≠ 0) (Recorder.frame <$> its).

#[global] Instance in_window_dec it : Decision (in_window it).
Proof. unfold in_window. apply _. Defined.

(** An iteration that restarts the camera when its write succeeds: its
    frame is not empty and it falls into the window. *)
Definition restarting (it : Recorder.Iter) : Prop :=
  length (Recorder.frame it) ≠ 0 ∧ in_window it.

#[global] Instance restarting_dec it : Decision (restarting it).
Proof. unfold restarting. apply _. Defined.

(** One iteration of the recording loop whose frame is not empty and whose
    write succeeds: what the viewers took is gone from the channel, the
    frame is written to the pipe and offered to the channel, and the
    camera is restarted if the clock says so. *)
Definition body (it : Recorder.Iter) (st : Recorder.RState) : Recorder.RState :=
  let st := Recorder.drain (Recorder.drained it) st in
  Recorder.maintenance it
    (Recorder.offer (Recorder.frame it)
       (Recorder.MkRState (Recorder.rstatus st) (Recorder.encodedFrameChan st)
          (Recorder.ffmpegIn st ++ [Recorder.frame it]) (Recorder.rlogs st)
          (Recorder.rstdout st) (Recorder.rcamera st) (Recorder.rdevices st))).

(** ** The transcoding variant of frameBroadcaster

    The oldest [frameBroadcaster] decodes every frame with libjpeg and encodes
    it again at quality 50; a frame that does not decode or encode restarts
    the camera.  The compressed frame is offered to [encodedFrameChan] as in
    the recording variant, whose state, [restartCamera] and [select] are
    the same code.  The codec is a parameter. *)
Module Transcoder.

Section Codec.

Variable Image : Type.
Variable Decode : Frame → string + Image.
Variable Encode : Image → string + Frame.

(** One iteration of [for frame := range frames]: the frame received, what
    [setupCamera] does should the camera be restarted, and how many frames
    the viewers took from [encodedFrameChan] since the previous
    iteration. *)
Record Iter : Type := MkIter {
  frame : Frame;
  reopen : SetupOutcome;
  drained : nat
}.

(** [jpeg.Decode] followed by [jpeg.Encode]: the compressed frame, when
    both succeed. *)
Definition transcode (f : Frame) : option Frame :=
  match Decode f with
  | inl _ => None
  | inr img => match Encode img with inl _ => None | inr c => Some c end
  end.

(** The loop of [frameBroadcaster]. *)
Fixpoint frameBroadcaster (its : list Iter) (st : Recorder.RState) : Recorder.RState :=
  match its with
  | [] => st
  | it :: rest =>
      let st := Recorder.drain (drained it) st in
      match Decode (frame it) with
      | inl e =>
          frameBroadcaster rest
            (Recorder.restartCamera (reopen it)
               (Recorder.rlog ("failed to decode MJPEG frame: " +:+ e) st))
      | inr img =>
          match Encode img with
          | inl e =>
              frameBroadcaster rest
                (Recorder.restartCamera (reopen it)
                   (Recorder.rlog ("failed to encode jpeg frame: " +:+ e) st))
          | inr c => frameBroadcaster rest (Recorder.offer c st)
          end
      end
  end.

End Codec.

End Transcoder.

(** ** The viewers of the older variants

    In the transcoding and in the recording variant there is no registry:
    every [imageServ] call ranges over the one channel [encodedFrameChan],
    writes each frame it receives as one part and returns when a write
    fails. *)
Module Shared.

(** One [imageServ] call: whether it is still in its loop, and the parts
    it has written. *)
Record Viewer : Type := MkViewer {
  alive : bool;
  vout : list Frame
}.

(** What happens to the part a viewer writes. *)
Inductive WriteOutcome : Type :=
| WOk
| WCreatePartFail (e : string)
| WWriteFail (e : string).

(** [queue] is [encodedFrameChan].  [accepted] and [lost] are history
    variables: the frames the channel accepted, in order, and the frames a
    viewer received but failed to write. *)
Record SState : Type := MkSState {
  queue : list Frame;
  viewers : list Viewer;
  slogs : list string;
  accepted : list Frame;
  lost : list Frame
}.

(** The [select] of the broadcaster on [encodedFrameChan], capacity 10. *)
Definition offer (f : Frame) (st : SState) : SState :=
  if length (queue st) <? 10
  then MkSState (queue st ++ [f]) (viewers st) (slogs st) (accepted st ++ [f]) (lost st)
  else MkSState (queue st) (viewers st)
         (slogs st ++ ["Frame channel full, dropping frame to keep up with the camera."])
         (accepted st) (lost st).

(** A new request on [/stream]. *)
Definition join (st : SState) : SState :=
  MkSState (queue st) (viewers st ++ [MkViewer true []]) (slogs st) (accepted st) (lost st).

(** One iteration of [for frame := range encodedFrameChan] of viewer [i];
    it waits while the channel is empty. *)
Definition imageServ (i : nat) (w : WriteOutcome) (st : SState) : option SState :=
  v ← viewers st !! i;
  if alive v then
    match queue st with
    | [] => None
    | f :: rest =>
        match w with
        | WOk =>
            Some (MkSState rest (<[i := MkViewer true (vout v ++ [f])]> (viewers st))
                    (slogs st) (accepted st) (lost st))
        | WCreatePartFail e =>
            Some (MkSState rest (<[i := MkViewer false (vout v)]> (viewers st))
                    (slogs st ++ ["failed to create multi-part writer: " +:+ e])
                    (accepted st) (lost st ++ [f]))
        | WWriteFail e =>
            Some (MkSState rest (<[i := MkViewer false (vout v)]> (viewers st))
                    (slogs st ++ ["failed to write compressed image: " +:+ e])
                    (accepted st) (lost st ++ [f]))
        end
    end
  else None.

Inductive SAction : Type :=
| SOffer (f : Frame)
| SJoin
| SView (i : nat) (w : WriteOutcome).

Definition sstep (a : SAction) (st : SState) : option SState :=
  match a with
  | SOffer f => Some (offer f st)
  | SJoin => Some (join st)
  | SView i w => imageServ i w st
  end.

Fixpoint srun (acts : list SAction) (st : SState) : option SState :=
  match acts with
  | [] => Some st
  | a :: acts' => st' ← sstep a st; srun acts' st'
  end.

(** Nobody connected, nothing queued. *)
Definition sinit : SState := MkSState [] [] [] [] [].

(** Everything the viewers have written, viewer after viewer. *)
Definition delivered (st : SState) : list Frame := mjoin (vout <$> viewers st).

(** What holds of every state: each accepted frame is queued, lost or
    written by one viewer; what a viewer has written and what is queued
    follow the order of acceptance, the queue holding the frames accepted
    last; every viewer that returned lost one frame. *)
Record sinv (st : SState) : Prop := {
  sinv_perm : delivered st ++ lost st ++ queue st ≡ₚ accepted st;
  sinv_order : ∀ i v, viewers st !! i = Some v →
    vout v ++ queue st `sublist_of` accepted st;
  sinv_queue : queue st `suffix_of` accepted st;
  sinv_lost : length (lost st) = length (filter (λ v, alive v = false) (viewers st));
  sinv_cap : length (queue st) ≤ 10
}.

End Shared.

(** ** listVideosHandler *)
Module Videos.

(** The scan of [filepath.Ext], from the last byte of the path backwards:
    it stops at a path separator, and at a dot it returns the rest of the
    path from that dot on.  [acc] holds the bytes already passed. *)
Fixpoint ext_from (rev_path : list Ascii.ascii) (acc : list Ascii.ascii)
  : list Ascii.ascii :=
  match rev_path with
  | [] => []
  | c :: rest =>
      if Ascii.eqb c "/"%char then []
      else if Ascii.eqb c "."%char then c :: acc
      else ext_from rest (c :: acc)
  end.

(** [filepath.Ext]: the suffix of the last element of [path] that begins at
    its last dot, empty when there is no dot. *)
Definition Ext (path : string) : string :=
  String.string_of_list_ascii (ext_from (rev (String.list_ascii_of_string path)) []).

(** An [os.DirEntry], as far as the handler looks at it. *)
Record DirEntry : Type := MkDirEntry {
  Name : string;
  IsDir : bool
}.

(** The condition of line 149. *)
Definition listed (file : DirEntry) : bool :=
  negb (IsDir file) && String.eqb (Ext (Name file)) ".mkv"
  || String.eqb (Ext (Name file)) ".zip".

(** The loop of lines 147-152 over the result of [os.ReadDir]: the slice
    [videoFiles] that is handed to the template. *)
Definition videoFiles (files : list DirEntry) : list string :=
  foldl (λ acc file, if listed file then acc ++ [Name file] else acc) [] files.

(** A byte that is neither a dot nor a path separator. *)
Definition plain (c : Ascii.ascii) : Prop := c ≠ "."%char ∧ c ≠ "/"%char.

End Videos.

(** A viewer connects, registers, is cancelled and cleans up, all without
    interruption: the schedule of its nine steps, [n] being its index. *)
Definition visit (a : string) (n : nat) : list Action :=
  AConnect a :: replicate 3 (ASess n IoOk) ++ ASess n IoCancelled :: replicate 4 (ASess n IoOk).

(** ** More concrete runs *)



(** From [idle]: [f1] is published to nobody, then the device delivers
    [f2]. *)
Definition acts_next : list Action := [ABcast 0; ABcast 0; ACapture 0 f2].

(** The state [acts_next] leads to from [idle]. *)
Definition next : State :=
  MkState Running (Some 0) [MkDevice [f2] true] [] ∅ None (BRange 0) []
    ["Serving images on [:8080/stream]"] [] [] [f1].

(** What follows [acts_fan] in [acts_restart]. *)
Definition acts_after : list Action :=
  [ABcast 0; ABcast 0; ASess 0 IoOk; ARestart SetupOk; ACapture 1 f2; ABcast 0].

(** Two iterations of the recording loop, the first at 12:30:01. *)
Definition its_window : list Recorder.Iter :=
  [Recorder.MkIter f1 None 30 1 SetupOk 0;
   Recorder.MkIter f2 None 30 16 SetupOk 0].

(** Two iterations of the recording loop away from the half hours. *)
Definition its_quiet : list Recorder.Iter :=
  [Recorder.MkIter f1 None 10 15 SetupOk 0;
   Recorder.MkIter f2 None 10 16 SetupOk 0].

(** A codec for the examples: a frame decodes unless it is empty, and an
    image of more than three bytes does not encode. *)
Definition decode_nonempty (f : Frame) : string + Frame :=
  if (length f =? 0)%nat then inl "unexpected EOF" else inr f.

Definition encode_short (img : Frame) : string + Frame :=
  if (3 <? length img)%nat then inl "image too large" else inr img.

(** Three iterations of the transcoding loop; the second frame is empty. *)
Definition its_jpeg : list Transcoder.Iter :=
  [Transcoder.MkIter f1 SetupOk 0; Transcoder.MkIter [] SetupOk 0;
   Transcoder.MkIter f2 SetupOk 1].

(** Two viewers of the older variants: [f1] is accepted, both connect,
    [f2] is accepted, the first viewer writes [f1], the second receives
    [f2] and fails to write it. *)
Definition acts_shared : list Shared.SAction :=
  [Shared.SOffer f1; Shared.SJoin; Shared.SJoin; Shared.SOffer f2;
   Shared.SView 0 Shared.WOk; Shared.SView 1 (Shared.WWriteFail "broken pipe")].

(** The state [acts_shared] leads to. *)
Definition shared_end : Shared.SState :=
  Shared.MkSState [] [Shared.MkViewer true [f1]; Shared.MkViewer false []]
    ["failed to write compressed image: broken pipe"] [f1; f2] [f2].

(** A directory listing: a recording, a directory named like an archive,
    a directory named like a recording, and a text file. *)
Definition listing : list Videos.DirEntry :=
  [Videos.MkDirEntry "2024-05-01.mkv" false; Videos.MkDirEntry "old.zip" true;
   Videos.MkDirEntry "tmp.mkv" true; Videos.MkDirEntry "notes.txt" false].

(** One viewer is registered and waits; the broadcaster waits for a
    frame. *)
Definition waiting_viewer : State :=
  MkState Running (Some 0) [MkDevice [] true] [make_chan 30] {[0]} None
    (BRange 0) [MkSession SLoop 0 "10.0.0.2:5000" []]
    ["Serving images on [:8080/stream]"] ["Client connected 10.0.0.2:5000"] [] [].

(** * Proofs *)

(** ** The initial state *)

Lemma main_fields p o l :
  heap (main p o l) = [] ∧ sessions (main p o l) = [] ∧ clients (main p o l) = ∅ ∧
  mutex (main p o l) = None ∧ bcast (main p o l) = BStart ∧ published (main p o l) = [].
Proof. destruct o, l; done. Qed.

Lemma inv_main p o l : inv (main p o l).
Proof.
  destruct (main_fields p o l) as (Hh & Hs & Hc & Hm & Hb & Hp).
  split; split; rewrite ?Hh, ?Hs, ?Hc, ?Hm, ?Hb; try done.
  - intros c. split; [set_solver|]. intros (s & ? & _). done.
Qed.

(** ** Case analysis of the steps *)

(** The handler of [/restart] only touches the device, the log, the
    standard output and the responses. *)
Lemma restart_frame o σ :
  heap (resetCameraWeb o σ) = heap σ ∧ sessions (resetCameraWeb o σ) = sessions σ ∧
  clients (resetCameraWeb o σ) = clients σ ∧ mutex (resetCameraWeb o σ) = mutex σ ∧
  bcast (resetCameraWeb o σ) = bcast σ ∧ published (resetCameraWeb o σ) = published σ ∧
  status (resetCameraWeb o σ) = status σ.
Proof.
  unfold resetCameraWeb, restartCamera.
  destruct (cameraDevice _), o; simpl; done.
Qed.

Lemma frameBroadcaster_case pick σ σ' :
  frameBroadcaster pick σ = Some σ' → bcast_case pick σ σ'.
Proof.
  unfold frameBroadcaster. intros H.
  repeat (case_match || simplify_option_eq); try (econstructor; by eauto).
  econstructor; eauto. by apply Nat.eqb_neq.
Qed.

Lemma imageServ_case i io σ σ' :
  imageServ i io σ = Some σ' → sess_case i σ σ'.
Proof.
  unfold imageServ, close_chan. intros H.
  repeat (case_match || simplify_option_eq); try (econstructor; by eauto).
Qed.

Lemma step_cases a σ σ' :
  step a σ = Some σ' →
  match a with
  | ABcast pick => bcast_case pick σ σ'
  | AConnect ad => σ' = connect ad σ
  | ASess i io => sess_case i σ σ'
  | ARestart o => σ' = resetCameraWeb o σ
  | ACapture d f => ∃ ds, σ' = set_devices ds σ
  end.
Proof.
  unfold step. destruct (status σ); [|done..]. destruct a; intros H.
  - by apply frameBroadcaster_case.
  - by injection H.
  - by eapply imageServ_case.
  - by injection H.
  - unfold capture in H. repeat (case_match || simplify_option_eq). eauto.
Qed.

(** ** The invariants are preserved *)

Lemma upd_lookup (l : list Session) i s j t :
  <[i := s]> l !! j = Some t →
  (j = i ∧ t = s ∧ is_Some (l !! i)) ∨ (j ≠ i ∧ l !! j = Some t).
Proof.
  intros H. apply list_lookup_insert_Some in H as [(<- & <- & Hlt)|[? ?]]; [left|right]; eauto.
  split_and!; eauto. by apply lookup_lt_is_Some.
Qed.

Lemma step_shape a σ σ' : step a σ = Some σ' → inv_shape σ → inv_shape σ'.
Proof.
  intros H [Hl Hc]. apply step_cases in H. destruct a.
  - destruct H; split; simpl; rewrite ?length_insert; done.
  - subst. split; simpl.
    + rewrite !length_app. simpl. lia.
    + intros i s Hi. apply lookup_app_Some in Hi as [Hi|[Hge Hi]]; [eauto|].
      apply list_lookup_singleton_Some in Hi as [Hi <-]. simpl. lia.
  - destruct H; split; simpl; rewrite ?length_insert; try done.
    all: intros j t Hj; apply upd_lookup in Hj as [(-> & -> & _)|[_ Hj]]; simpl; eauto.
  - destruct (restart_frame o σ) as (Hh & Hs & _). subst. split; rewrite ?Hh, ?Hs; done.
  - destruct H as [ds ->]. split; done.
Qed.

Lemma upd_is_Some (l : list Session) i s j :
  is_Some (<[i := s]> l !! j) ↔ is_Some (l !! j).
Proof. by rewrite !lookup_lt_is_Some, length_insert. Qed.

Lemma step_mutex a σ σ' : step a σ = Some σ' → inv_mutex σ → inv_mutex σ'.
Proof.
  intros H [Hb Hs Hv]. apply step_cases in H. destruct a.
  - destruct H; split; simpl; try done.
    all: try (rewrite H in Hb; simpl in Hb).
    all: try (intros i' s' Hi'; specialize (Hs i' s' Hi')).
    all: try match goal with H : mutex _ = _ |- _ => rewrite H in * end.
    all: try (intuition congruence).
  - subst; split; simpl; try done.
    + intros i s Hi. apply lookup_app_Some in Hi as [Hi|[Hge Hi]]; [eauto|].
      apply list_lookup_singleton_Some in Hi as [Hi <-]. simpl.
      split; [|done]. intros Hm. apply Hv in Hm as [t Ht].
      apply lookup_lt_Some in Ht. lia.
    + intros i Hm. apply Hv in Hm as [t Ht]. exists t. by apply lookup_app_l_Some.
  - destruct H; split; simpl; try done.
    all: try (pose proof (Hs i s H) as Hi; rewrite H0 in Hi; simpl in Hi).
    all: try (intros j Hm; apply upd_is_Some; first [ by apply Hv | by simplify_eq; eauto ]).
    all: try (intros j t Hj; apply upd_lookup in Hj as [(-> & -> & _)|[Hne Hj]];
              simpl; [|specialize (Hs j t Hj)]).
    all: try match goal with H : mutex _ = _ |- _ => rewrite H in * end.
    all: try rewrite H0.
    all: simpl.
    all: try (intuition congruence).
  - destruct (restart_frame o σ) as (Hh & Hss & Hc & Hm & Hbb & _). subst σ'.
    split; rewrite ?Hss, ?Hm, ?Hbb; done.
  - destruct H as [ds ->]. split; done.
Qed.

Lemma try_send_Some f ch ch' :
  try_send f ch = Some ch' →
  closed ch = false ∧ closed ch' = false ∧ cap ch' = cap ch ∧
  offered ch' = offered ch ++ [f] ∧
  ((length (buf ch) < cap ch ∧ buf ch' = buf ch ++ [f]) ∨
   (cap ch ≤ length (buf ch) ∧ buf ch' = buf ch)).
Proof.
  unfold try_send. destruct (closed ch); [done|].
  destruct (Nat.ltb_spec (length (buf ch)) (cap ch)); intros [= <-]; simpl;
    split_and!; auto.
Qed.

Lemma try_send_open f ch : closed ch = false → is_Some (try_send f ch).
Proof. unfold try_send. intros ->. case_match; eauto. Qed.

Lemma ex_reg_upd (l : list Session) i s s' c :
  l !! i = Some s →
  (∃ s0, <[i := s']> l !! c = Some s0 ∧ registered (spc s0) = true) ↔
  (if decide (c = i) then registered (spc s') = true
   else ∃ s0, l !! c = Some s0 ∧ registered (spc s0) = true).
Proof.
  intros Hi. case_decide as Hc.
  - subst c. rewrite list_lookup_insert_eq by (by eapply lookup_lt_Some).
    split; [by intros (? & [= <-] & ?)|eauto].
  - by rewrite list_lookup_insert_ne.
Qed.

Lemma ex_reg (l : list Session) i s c :
  l !! i = Some s →
  (∃ s0, l !! c = Some s0 ∧ registered (spc s0) = true) ↔
  (if decide (c = i) then registered (spc s) = true
   else ∃ s0, l !! c = Some s0 ∧ registered (spc s0) = true).
Proof.
  intros Hi. case_decide as Hc; [subst c|done].
  split; [|eauto]. intros (? & Hj & ?). by simplify_eq.
Qed.

Lemma step_registry a σ σ' :
  step a σ = Some σ' → inv_shape σ → inv_mutex σ → inv_registry σ → inv_registry σ'.
Proof.
  intros H [Hl Hch] [Hb Hs Hv] [Hc Hcl Ht]. apply step_cases in H. destruct a.
  - destruct H; split; simpl; try done.
    + by intros ??? [= _ _ <-].
    + intros i s ch0 Hi Hh.
      apply try_send_Some in H2 as (Ho & Ho' & _).
      apply list_lookup_insert_Some in Hh as [(-> & <- & _)|[Hne Hh]]; [|eauto].
      rewrite Ho'. rewrite <- (Hcl _ _ _ Hi H1). by rewrite Ho.
    + intros ??? [= _ _ <-]. specialize (Ht _ _ _ H). set_solver.
  - subst; split; simpl; [| |done].
    + intros c. rewrite Hc. split; intros (s & Hi & Hr).
      * exists s. split; [|done]. by apply lookup_app_l_Some.
      * apply lookup_app_Some in Hi as [Hi|[Hge Hi]]; [eauto|].
        apply list_lookup_singleton_Some in Hi as [Hi <-]. done.
    + intros i s ch Hi Hh.
      apply lookup_app_Some in Hi as [Hi|[Hge Hi]].
      * apply lookup_app_Some in Hh as [Hh|[Hge Hh]]; [eauto|].
        apply lookup_lt_Some in Hi. lia.
      * apply list_lookup_singleton_Some in Hi as [Hi <-].
        apply lookup_app_Some in Hh as [Hh|[Hge' Hh]].
        { apply lookup_lt_Some in Hh. lia. }
        apply list_lookup_singleton_Some in Hh as [Hh <-]. done.
  - destruct H; split; simpl; try done.
    all: pose proof (Hch _ _ H) as Hci; rewrite ?Hci in *.
    all: pose proof (Hs _ _ H) as Hi; rewrite H0 in Hi; simpl in Hi.
    all: try (intros c; rewrite (ex_reg_upd _ _ _ _ _ H); specialize (Hc c);
              rewrite (ex_reg _ _ _ _ H), H0 in Hc; simpl; rewrite ?H0; clear -Hc;
              case_decide; simpl in *; [subst c|]; set_solver).
    all: try (intros ? ? ? Hbf; rewrite Hbf in Hb; simpl in Hb;
              assert (mutex σ = Some OBcast) by (by apply Hb);
              assert (mutex σ = Some (OSess i)) by (by apply Hi); congruence).
    all: intros j t ch0 Hj Hh; apply upd_lookup in Hj as [(-> & -> & _)|[Hne Hj]];
         [ try (apply list_lookup_insert_Some in Hh as [(_ & <- & _)|[? _]]; [|done])
         | try (rewrite list_lookup_insert_ne in Hh by done); by eauto ].
    all: match goal with Hx : heap _ !! _ = Some _ |- _ =>
           pose proof (Hcl _ _ _ H Hx) as Hq; rewrite H0 in Hq end.
    all: clear -Hq H0; simpl in *; rewrite ?H0; try (intuition congruence).
  - destruct (restart_frame o σ) as (Hh & Hss & Hcc & Hm & Hbb & _). subst σ'.
    split; rewrite ?Hh, ?Hss, ?Hcc, ?Hm, ?Hbb; done.
  - destruct H as [ds ->]. split; done.
Qed.

Lemma registered_not_fresh p : registered p = true → fresh_pc p = false.
Proof. by destruct p. Qed.

Lemma pending_not_fan σ c : in_fan (bcast σ) = false → pending σ c = [].
Proof. unfold pending. by destruct (bcast σ). Qed.

Lemma suffix_is_sublist {A} (l1 l2 : list A) :
  l1 `suffix_of` l2 → l1 `sublist_of` l2.
Proof. intros [k ->]. by apply sublist_inserts_l. Qed.

Lemma pending_unregistered σ c :
  inv_registry σ → c ∉ clients σ → pending σ c = [].
Proof.
  intros [_ _ Ht] Hc. unfold pending. destruct (bcast σ) eqn:Hb; try done.
  rewrite decide_False; [done|]. specialize (Ht _ _ _ eq_refl). set_solver.
Qed.

Lemma clients_lt σ c : inv_registry σ → c ∈ clients σ → c < length (sessions σ).
Proof. intros [Hc _ _] (s & Hs & _)%Hc. by eapply lookup_lt_Some. Qed.

Lemma both_upd {Q : Session → Chan → Prop} (ss : list Session) (hp : list Chan) i s' ch' :
  (∀ j t ch, ss !! j = Some t → hp !! j = Some ch → Q t ch) →
  Q s' ch' →
  ∀ j t ch, <[i := s']> ss !! j = Some t → <[i := ch']> hp !! j = Some ch → Q t ch.
Proof.
  intros Hall Hnew j t ch Hj Hh.
  apply list_lookup_insert_Some in Hj as [(<- & <- & _)|[Hne Hj]].
  - apply list_lookup_insert_Some in Hh as [(_ & <- & _)|[? _]]; done.
  - rewrite list_lookup_insert_ne in Hh by done. eauto.
Qed.

Lemma sess_upd {Q : Session → Chan → Prop} (ss : list Session) (hp : list Chan) i s' :
  (∀ j t ch, ss !! j = Some t → hp !! j = Some ch → Q t ch) →
  (∀ ch, hp !! i = Some ch → Q s' ch) →
  ∀ j t ch, <[i := s']> ss !! j = Some t → hp !! j = Some ch → Q t ch.
Proof.
  intros Hall Hnew j t ch Hj Hh.
  apply list_lookup_insert_Some in Hj as [(<- & <- & _)|[Hne Hj]]; eauto.
Qed.

Lemma heap_upd {P : nat → Chan → Prop} (hp : list Chan) i ch' :
  (∀ c ch, hp !! c = Some ch → P c ch) →
  P i ch' →
  ∀ c ch, <[i := ch']> hp !! c = Some ch → P c ch.
Proof.
  intros Hall Hnew c ch Hh.
  apply list_lookup_insert_Some in Hh as [(<- & <- & _)|[Hne Hh]]; eauto.
Qed.

Lemma step_hist act σ σ' :
  step act σ = Some σ' →
  inv_shape σ → inv_mutex σ → inv_registry σ → inv_hist σ → inv_hist σ'.
Proof.
  intros H [Hl Hch] [Hb Hs Hv] [Hc Hcl Ht] [Hf Ho Hsub Hsuf].
  apply step_cases in H. destruct act as [pick|ad|i io|o|d fr].
  - destruct H.
    2: by split.
    1-4: split; simpl; [done|done|intros c ch Hh; specialize (Hsub c ch Hh)
                                 |intros c ch Hh; specialize (Hsuf c ch Hh)];
         unfold pending in *; simpl; by rewrite H in *.
    + (* Lock *)
      assert (∀ c, pending σ c = []) as Hp
        by (intros c; apply pending_not_fan; by rewrite H).
      split; simpl; [done|done|..]; unfold pending; simpl; intros c ch Hh.
      * specialize (Hsub c ch Hh). rewrite Hp in Hsub.
        case_decide as Hin.
        -- apply suffix_is_sublist. specialize (Hsuf c ch Hh Hin).
           rewrite Hp, app_nil_r in Hsuf. by apply suffix_app.
        -- by apply sublist_inserts_r.
      * intros Hin. rewrite decide_True by done.
        specialize (Hsuf c ch Hh Hin). rewrite Hp, app_nil_r in Hsuf.
        by apply suffix_app.
    + (* Unlock *)
      split; simpl; [done|done|intros c ch Hh; specialize (Hsub c ch Hh)
                            |intros c ch Hh; specialize (Hsuf c ch Hh)];
        unfold pending in *; simpl; rewrite H in *;
        by rewrite decide_False in * by set_solver.
    + (* one send of the fan-out *)
      apply try_send_Some in H2 as (Hop & _ & _ & Hoff & Hbuf).
      pose proof (Ht _ _ _ H _ H0) as Hreg. apply Hc in Hreg as (sp & Hsp & Hrp).
      assert (pending σ pick = [f]) as Hpp
        by (unfold pending; rewrite H; by rewrite decide_True).
      assert (∀ c, c ≠ pick →
                pending (set_bcast (BFan src f (todo ∖ {[pick]}))
                           (set_heap (<[pick:=ch']> (heap σ)) σ)) c = pending σ c) as Hpo.
      { intros c Hne. unfold pending. simpl. rewrite H.
        destruct (decide (c ∈ todo)); [rewrite decide_True|rewrite decide_False];
          set_solver. }
      assert (pending (set_bcast (BFan src f (todo ∖ {[pick]}))
                         (set_heap (<[pick:=ch']> (heap σ)) σ)) pick = []) as Hpn.
      { unfold pending. simpl. rewrite decide_False; set_solver. }
      split; simpl.
      * intros i s c Hi Hh Hfr.
        apply list_lookup_insert_Some in Hh as [(-> & <- & _)|[Hne Hh]]; [|eauto].
        simplify_eq. apply registered_not_fresh in Hrp. congruence.
      * intros i s c Hi Hh.
        apply list_lookup_insert_Some in Hh as [(-> & <- & _)|[Hne Hh]]; [|eauto].
        rewrite Hoff. specialize (Ho _ _ _ Hi H1).
        destruct Hbuf as [[_ ->]|[_ ->]].
        -- rewrite app_assoc. by apply sublist_app.
        -- by apply sublist_inserts_r.
      * intros c c0 Hh.
        apply list_lookup_insert_Some in Hh as [(-> & <- & _)|[Hne Hh]].
        -- rewrite Hpn, Hoff, app_nil_r. specialize (Hsub _ _ H1). by rewrite Hpp in Hsub.
        -- rewrite Hpo by done. eauto.
      * intros c c0 Hh Hin.
        apply list_lookup_insert_Some in Hh as [(-> & <- & _)|[Hne Hh]].
        -- rewrite Hpn, Hoff, app_nil_r. specialize (Hsuf _ _ H1 Hin). by rewrite Hpp in Hsuf.
        -- rewrite Hpo by done. eauto.
  - (* a new session *)
    subst σ'.
    assert (length (heap σ) ∉ clients σ) as Hnew.
    { intros Hin%clients_lt; [lia|done]. }
    assert (∀ c, pending (connect ad σ) c = pending σ c) as Hp by done.
    split; simpl.
    + intros i s ch Hi Hh Hfr.
      apply lookup_app_Some in Hh as [Hh|[Hge Hh]].
      * apply lookup_app_Some in Hi as [Hi|[Hge Hi]]; [eauto|].
        apply lookup_lt_Some in Hh. lia.
      * by apply list_lookup_singleton_Some in Hh as [_ <-].
    + intros i s ch Hi Hh.
      apply lookup_app_Some in Hh as [Hh|[Hge Hh]].
      * apply lookup_app_Some in Hi as [Hi|[Hge Hi]]; [eauto|].
        apply lookup_lt_Some in Hh. lia.
      * apply list_lookup_singleton_Some in Hh as [Hz <-].
        apply lookup_app_Some in Hi as [Hi|[_ Hi]].
        { apply lookup_lt_Some in Hi. lia. }
        by apply list_lookup_singleton_Some in Hi as [_ <-].
    + intros c ch Hh. rewrite Hp.
      apply lookup_app_Some in Hh as [Hh|[Hge Hh]]; [eauto|].
      apply list_lookup_singleton_Some in Hh as [Hz <-]. simpl.
      assert (c = length (heap σ)) as -> by lia.
      rewrite pending_unregistered by done. apply sublist_nil_l.
    + intros c ch Hh Hin. rewrite Hp.
      apply lookup_app_Some in Hh as [Hh|[Hge Hh]]; [eauto|].
      apply list_lookup_singleton_Some in Hh as [Hz <-].
      assert (c = length (heap σ)) as -> by lia. done.
  - (* a step of session i *)
    destruct H as [msg|s Hi Hpc Hm|s Hi Hpc|s o Hi Hpc Hm|s Hi Hpc
                  |s ch f rest Hi Hpc Hh Hbuf|s ch f rest msg Hi Hpc Hh Hbuf
                  |s Hi Hpc Hm|s Hi Hpc|s o Hi Hpc Hm|s ch Hi Hpc Hh Hclosed];
      [by split|..].
    all: pose proof (Hch _ _ Hi) as Hci; rewrite ?Hci in *.
    all: split; simpl.
    all: try exact Hsub.
    all: try exact Hsuf.
    all: try (eapply sess_upd; [exact Ho|]; intros ch0 Hh0; simpl; by eapply Ho).
    all: try (eapply (sess_upd (Q := λ t c, fresh_pc (spc t) = true → offered c = []));
              [exact Hf|]; intros ch0 Hh0; simpl;
              first [ done
                    | by (intros _; eapply Hf; [exact Hi|exact Hh0|by rewrite Hpc]) ]).
    all: try (eapply heap_upd; [exact Hsub|]; simpl; exact (Hsub _ _ Hh)).
    all: try (eapply (heap_upd (P := λ c c0, c ∈ clients σ →
                         offered c0 ++ pending σ c `suffix_of` published σ));
              [exact Hsuf|]; simpl; exact (Hsuf _ _ Hh)).
    all: try (eapply (both_upd (Q := λ t c, fresh_pc (spc t) = true → offered c = []));
              [exact Hf|]; simpl; rewrite ?Hpc; done).
    all: try (eapply both_upd; [exact Ho|]; simpl;
              specialize (Ho _ _ _ Hi Hh); rewrite ?Hbuf in Ho).
    + (* after the insert of line 83 *)
      intros c c0 Hh Hin. change (pending _ c) with (pending σ c).
      apply elem_of_union in Hin as [->%elem_of_singleton|Hin]; [|eauto].
      rewrite (Hf _ _ _ Hi Hh) by (by rewrite Hpc).
      rewrite pending_unregistered; [apply suffix_nil|done|].
      intros (t & Ht' & Hr)%Hc. simplify_eq. by rewrite Hpc in Hr.
    + by rewrite <- app_assoc.
    + etrans; [|exact Ho]. apply sublist_app; [done|]. by apply sublist_cons.
    + intros c c0 Hh Hin. change (pending _ c) with (pending σ c).
      apply Hsuf; [done|]. set_solver.
    + done.
  - destruct (restart_frame o σ) as (Hh & Hss & Hcc & Hm & Hbb & Hpp & _). subst σ'.
    split; unfold pending in *; rewrite ?Hh, ?Hss, ?Hcc, ?Hbb, ?Hpp; done.
  - destruct H as [ds ->]. split; done.
Qed.

(** Every step preserves the invariant, so it holds in every state a run
    of the program reaches. *)
Lemma step_inv act σ σ' : step act σ = Some σ' → inv σ → inv σ'.
Proof.
  intros H [Hs Hm Hr Hh]. split.
  - by eapply step_shape.
  - by eapply step_mutex.
  - by eapply step_registry.
  - by eapply step_hist.
Qed.

Lemma run_inv acts σ σ' : run acts σ = Some σ' → inv σ → inv σ'.
Proof.
  revert σ. induction acts as [|act acts IH]; intros σ H Hinv; simpl in H.
  - by simplify_eq.
  - destruct (step act σ) as [σ1|] eqn:Hst; [|done]. simpl in H.
    eapply IH; [done|]. by eapply step_inv.
Qed.

Lemma reachable_inv p o l acts σ : run acts (main p o l) = Some σ → inv σ.
Proof. intros H. eapply run_inv; [done|]. apply inv_main. Qed.

(** ** No goroutine panics

    Apart from the nil dereference of line 52, which needs a failed restart
    before the broadcaster has run its first statement, no step panics. *)


Lemma registered_open σ c ch :
  inv σ → c ∈ clients σ → heap σ !! c = Some ch → closed ch = false.
Proof.
  intros [_ _ [Hc Hcl _] _] (s & Hs & Hr)%Hc Hh.
  destruct (closed ch) eqn:Hclosed; [|done].
  apply (Hcl _ _ _ Hs Hh) in Hclosed. by rewrite Hclosed in Hr.
Qed.

Lemma registered_made σ c : inv σ → c ∈ clients σ → is_Some (heap σ !! c).
Proof.
  intros Hinv Hc. apply lookup_lt_is_Some.
  rewrite (shape_len _ (inv_s _ Hinv)). eapply clients_lt; [|done]. apply Hinv.
Qed.






(** ** One publish *)

(** One iteration of the [range clients] loop, in any state the program can
    be in: the channel the map yields is registered, made and open, and the
    [select] completes at once, whatever the viewer is doing. *)
Lemma fan_step σ src f todo c :
  inv σ → status σ = Running → bcast σ = BFan src f todo → c ∈ todo →
  ∃ ch ch',
    c ∈ clients σ ∧ heap σ !! c = Some ch ∧ try_send f ch = Some ch' ∧
    step (ABcast c) σ =
      Some (set_bcast (BFan src f (todo ∖ {[c]})) (set_heap (<[c := ch']> (heap σ)) σ)).
Proof.
  intros Hinv Hst Hb Hin.
  pose proof (reg_todo _ (inv_r _ Hinv) _ _ _ Hb _ Hin) as Hreg.
  destruct (registered_made _ _ Hinv Hreg) as [ch Hh].
  pose proof (registered_open _ _ _ Hinv Hreg Hh) as Hopen.
  destruct (try_send_open f ch Hopen) as [ch' Hts].
  exists ch, ch'. split_and!; try done.
  unfold step, frameBroadcaster. rewrite Hst, Hb.
  rewrite decide_False by set_solver. rewrite decide_True by done.
  rewrite Hh. simpl. by rewrite Hts.
Qed.

Lemma try_send_enqueued f ch ch' : try_send f ch = Some ch' → enqueued f ch ch'.
Proof.
  unfold try_send, enqueued. destruct (closed ch); [done|].
  destruct (length (buf ch) <? cap ch); by intros [= <-].
Qed.

(** The whole loop, the map yielding its keys in the order [l]. *)
Lemma fan_run l : ∀ σ src f todo,
  inv σ → status σ = Running → bcast σ = BFan src f todo →
  NoDup l → (∀ c, c ∈ l ↔ c ∈ todo) →
  ∃ σ', run (ABcast <$> l) σ = Some σ' ∧
    inv σ' ∧ status σ' = Running ∧ bcast σ' = BFan src f ∅ ∧
    mutex σ' = mutex σ ∧ clients σ' = clients σ ∧ sessions σ' = sessions σ ∧
    (∀ c ch, heap σ !! c = Some ch →
       ∃ ch', heap σ' !! c = Some ch' ∧
         if decide (c ∈ l) then enqueued f ch ch' else ch' = ch).
Proof.
  induction l as [|c l IH]; intros σ src f todo Hinv Hst Hb Hnd Hl.
  - exists σ. split_and!; try done.
    + rewrite Hb. f_equal. apply set_eq. intros c. rewrite <- Hl. set_solver.
    + intros c ch Hh. exists ch. by rewrite decide_False by set_solver.
  - apply NoDup_cons in Hnd as [Hc Hnd].
    assert (c ∈ todo) as Hin by (apply Hl; set_solver).
    destruct (fan_step _ _ _ _ _ Hinv Hst Hb Hin) as (ch & ch' & Hreg & Hh & Hts & Hstep).
    set (σ1 := set_bcast (BFan src f (todo ∖ {[c]})) (set_heap (<[c:=ch']> (heap σ)) σ)) in *.
    destruct (IH σ1 src f (todo ∖ {[c]})) as (σ' & Hrun & Hinv' & Hst' & Hb' & Hm & Hcl & Hss & Hheap);
      [by eapply step_inv|done|done|done| |].
    { intros x. rewrite elem_of_difference, elem_of_singleton, <- Hl, elem_of_cons.
      split; [intros ?; split; [auto|congruence]|intros [[?|?] ?]; done]. }
    exists σ'. split_and!; try done.
    + simpl. rewrite Hstep. done.
    + intros x chx Hx. destruct (decide (x = c)) as [->|Hne].
      * simplify_eq. destruct (Hheap c ch') as (ch2 & Hh2 & Hd).
        { simpl. apply list_lookup_insert_eq. by eapply lookup_lt_Some. }
        rewrite decide_False in Hd by done. subst ch2.
        exists ch'. split; [done|]. rewrite decide_True by set_solver.
        by apply try_send_enqueued.
      * destruct (Hheap x chx) as (ch2 & Hh2 & Hd).
        { simpl. by rewrite list_lookup_insert_ne. }
        exists ch2. split; [done|].
        destruct (decide (x ∈ l)); [rewrite decide_True by set_solver|rewrite decide_False by set_solver]; done.
Qed.

Lemma run_app acts1 acts2 σ :
  run (acts1 ++ acts2) σ = σ1 ← run acts1 σ; run acts2 σ1.
Proof.
  revert σ. induction acts1 as [|a acts1 IH]; intros σ; simpl; [done|].
  destruct (step a σ); simpl; auto.
Qed.

(** C1.  In any state the program reaches in which the broadcaster has
    received a non-empty frame [f] and the lock is free, the broadcaster
    completes the publish of [f] by its own steps alone, one [Lock], one
    [select] per registered queue and one [Unlock], without any step of a
    viewer.  Afterwards every registered queue with room has [f] appended at
    its end; every registered queue that was full is unchanged, the frame
    being dropped for that viewer only and no queued frame evicted; the
    queues that are not registered are unchanged. *)
Theorem publish_try_enqueue p o l acts σ src f :
  run acts (main p o l) = Some σ → status σ = Running →
  bcast σ = BLock src f → mutex σ = None →
  ∃ σ', run (publish_acts σ) σ = Some σ' ∧
    status σ' = Running ∧ bcast σ' = BRange src ∧ mutex σ' = None ∧
    clients σ' = clients σ ∧ sessions σ' = sessions σ ∧
    ∀ c ch, heap σ !! c = Some ch →
      ∃ ch', heap σ' !! c = Some ch' ∧ cap ch' = cap ch ∧ closed ch' = closed ch ∧
        buf ch' = if decide (c ∈ clients σ ∧ length (buf ch) < cap ch)
                  then buf ch ++ [f] else buf ch.
Proof.
  intros Hrun Hst Hb Hm. pose proof (reachable_inv _ _ _ _ _ Hrun) as Hinv.
  set (σ1 := set_bcast (BFan src f (clients σ)) (set_mutex (Some OBcast) (add_published f σ))).
  assert (step (ABcast 0) σ = Some σ1) as Hlock.
  { unfold step, frameBroadcaster. by rewrite Hst, Hb, Hm. }
  destruct (fan_run (elements (clients σ)) σ1 src f (clients σ))
    as (σ2 & Hrun2 & Hinv2 & Hst2 & Hb2 & Hm2 & Hcl2 & Hss2 & Hheap);
    [by eapply step_inv|done|done|apply NoDup_elements|apply elem_of_elements|].
  exists (set_bcast (BRange src) (set_mutex None σ2)). split_and!; try done.
  - unfold publish_acts. simpl. rewrite Hlock. simpl.
    rewrite run_app, Hrun2. simpl.
    unfold step, frameBroadcaster. rewrite Hst2, Hb2, Hm2. simpl.
    by rewrite decide_True.
  - intros c ch Hh. destruct (Hheap c ch Hh) as (ch' & Hh' & Hd).
    exists ch'. split; [done|].
    destruct (decide (c ∈ elements (clients σ))) as [Hc|Hc];
      rewrite elem_of_elements in Hc.
    + destruct Hd as (? & ? & Hbuf). split_and!; try done. rewrite Hbuf.
      destruct (Nat.ltb_spec (length (buf ch)) (cap ch)).
      * by rewrite decide_True.
      * rewrite decide_False; [done|]. intros [_ ?]. lia.
    + subst ch'. split_and!; try done. rewrite decide_False; [done|]. by intros [? _].
Qed.

(** What a session has written, what is queued for it and what it was
    offered, against what was published. *)
Lemma session_history σ i s :
  inv σ → sessions σ !! i = Some s →
  ∃ ch, heap σ !! chan s = Some ch ∧
    out s ++ buf ch `sublist_of` offered ch ∧
    offered ch `sublist_of` published σ ∧
    out s `sublist_of` published σ ∧
    (chan s ∈ clients σ → offered ch ++ pending σ (chan s) `suffix_of` published σ).
Proof.
  intros [Hs Hm Hr Hh] Hi.
  pose proof (shape_chan _ Hs _ _ Hi) as Hci. rewrite Hci.
  destruct (heap σ !! i) as [ch|] eqn:Hch.
  2: { apply lookup_ge_None in Hch. apply lookup_lt_Some in Hi.
       rewrite (shape_len _ Hs) in Hch. lia. }
  exists ch.
  pose proof (hist_out _ Hh _ _ _ Hi Hch) as Hout.
  pose proof (hist_sub _ Hh _ _ Hch) as Hsub.
  assert (offered ch `sublist_of` published σ) as Hoff.
  { etrans; [|exact Hsub]. by apply sublist_inserts_r. }
  split_and!; try done.
  - etrans; [|exact Hoff]. etrans; [|exact Hout]. by apply sublist_inserts_r.
  - by apply (hist_suffix _ Hh).
Qed.

(** C2.  In every state the program reaches and for every viewer session,
    the frames written to the connection followed by the frames still queued
    are a subsequence of the frames the broadcaster offered to the session's
    queue, which are a subsequence of the frames published so far, in
    publication order; while the session is registered, the offered frames
    together with the one being offered are exactly the frames published
    since some point, a suffix of the published sequence.  So the frames a
    viewer receives are a subsequence of the capture order: frames may be
    missing, none is reordered or duplicated. *)
Theorem viewer_frames_subsequence p o l acts σ i s :
  run acts (main p o l) = Some σ → sessions σ !! i = Some s →
  ∃ ch, heap σ !! chan s = Some ch ∧
    out s ++ buf ch `sublist_of` offered ch ∧
    offered ch `sublist_of` published σ ∧
    out s `sublist_of` published σ ∧
    (chan s ∈ clients σ → offered ch ++ pending σ (chan s) `suffix_of` published σ).
Proof.
  intros Hrun Hi. eapply session_history; [|done]. by eapply reachable_inv.
Qed.

(** C8.  In every state the program reaches: every key of [clients] is a
    channel that has been made and is not closed; a closed channel is not
    in [clients]; no send of the fan-out panics on a closed channel; two
    sessions never have the same channel; and the keys of [clients] are
    exactly the channels of the sessions between their insert and their
    delete. *)
Theorem registry_invariant p o l acts σ :
  run acts (main p o l) = Some σ →
  (∀ c, c ∈ clients σ → ∃ ch, heap σ !! c = Some ch ∧ closed ch = false) ∧
  (∀ c ch, heap σ !! c = Some ch → closed ch = true → c ∉ clients σ) ∧
  (∀ src f todo c σ', status σ = Running → bcast σ = BFan src f todo → c ∈ todo →
     step (ABcast c) σ = Some σ' → status σ' = Running) ∧
  (∀ i j s t, sessions σ !! i = Some s → sessions σ !! j = Some t →
     chan s = chan t → i = j) ∧
  (∀ c, c ∈ clients σ ↔
     ∃ i s, sessions σ !! i = Some s ∧ chan s = c ∧ registered (spc s) = true).
Proof.
  intros Hrun. pose proof (reachable_inv _ _ _ _ _ Hrun) as Hinv.
  pose proof (inv_s _ Hinv) as Hs. pose proof (inv_r _ Hinv) as Hr.
  split_and!.
  - intros c Hc. destruct (registered_made _ _ Hinv Hc) as [ch Hch].
    exists ch. split; [done|]. by eapply registered_open.
  - intros c ch Hch Hclosed Hc.
    by rewrite (registered_open _ _ _ Hinv Hc Hch) in Hclosed.
  - intros src f todo c σ' Hst Hb Hin Hstep.
    destruct (fan_step _ _ _ _ _ Hinv Hst Hb Hin) as (ch & ch' & _ & _ & _ & Heq).
    rewrite Heq in Hstep. by simplify_eq.
  - intros i j s t Hi Hj Heq.
    by rewrite <- (shape_chan _ Hs _ _ Hi), <- (shape_chan _ Hs _ _ Hj).
  - intros c. rewrite (reg_clients _ Hr). split.
    + intros (s & Hi & Hreg). exists c, s. split_and!; try done. by eapply shape_chan.
    + intros (i & s & Hi & Hc & Hreg). exists s.
      rewrite <- Hc, (shape_chan _ Hs _ _ Hi). done.
Qed.

Lemma unlock_step σ i s o :
  status σ = Running → sessions σ !! i = Some s → mutex σ = Some o →
  spc s = SRegUnlock ∨ spc s = SDelUnlock →
  ∃ σ', step (ASess i IoOk) σ = Some σ' ∧ mutex σ' = None ∧ heap σ' = heap σ.
Proof.
  intros Hst Hi Hm [Hpc|Hpc]; eexists;
    (split; [unfold step, imageServ; rewrite Hst, Hi; simpl; rewrite Hpc, Hm; reflexivity
            |done]).
Qed.

(** A session that holds the lock releases it within two of its own steps,
    none of which touches a queue. *)
Lemma session_releases σ i :
  inv σ → status σ = Running → mutex σ = Some (OSess i) →
  ∃ σ', (run [ASess i IoOk] σ = Some σ' ∨ run [ASess i IoOk; ASess i IoOk] σ = Some σ') ∧
    mutex σ' = None ∧ heap σ' = heap σ.
Proof.
  intros Hinv Hst Hm.
  destruct (mutex_valid _ (inv_m _ Hinv) _ Hm) as [s Hi].
  pose proof (proj1 (mutex_sess _ (inv_m _ Hinv) _ _ Hi) Hm) as Hcrit.
  assert (i < length (sessions σ)) as Hlt by (by eapply lookup_lt_Some).
  destruct (spc s) eqn:Hpc; try done.
  - set (σ1 := upd_sess i (set_spc SRegUnlock s) (set_clients ({[chan s]} ∪ clients σ) σ)).
    assert (step (ASess i IoOk) σ = Some σ1) as H1.
    { unfold step, imageServ. rewrite Hst, Hi. simpl. by rewrite Hpc. }
    destruct (unlock_step σ1 i (set_spc SRegUnlock s) (OSess i)) as (σ2 & H2 & ? & ?);
      [done|by apply list_lookup_insert_eq|done|by left|].
    exists σ2. split; [right|done]. simpl. rewrite H1. simpl. by rewrite H2.
  - destruct (unlock_step σ i s (OSess i)) as (σ2 & H2 & ? & ?); [done..|by left|].
    exists σ2. split; [left|done]. simpl. by rewrite H2.
  - set (σ1 := upd_sess i (set_spc SDelUnlock s) (set_clients (clients σ ∖ {[chan s]}) σ)).
    assert (step (ASess i IoOk) σ = Some σ1) as H1.
    { unfold step, imageServ. rewrite Hst, Hi. simpl. by rewrite Hpc. }
    destruct (unlock_step σ1 i (set_spc SDelUnlock s) (OSess i)) as (σ2 & H2 & ? & ?);
      [done|by apply list_lookup_insert_eq|done|by right|].
    exists σ2. split; [right|done]. simpl. rewrite H1. simpl. by rewrite H2.
  - destruct (unlock_step σ i s (OSess i)) as (σ2 & H2 & ? & ?); [done..|by right|].
    exists σ2. split; [left|done]. simpl. by rewrite H2.
Qed.

(** The queue of a stalled viewer keeps the 30 oldest frames: of 31 frames
    published the last one is dropped. *)
Example full_queue_drops_newest :
  (λ σ, (buf <$> heap σ !! 0, offered <$> heap σ !! 0, bcast σ, mutex σ))
    <$> run (acts_stalled 31) (main ":8080" SetupOk None)
  = Some (Some (nth_frame <$> seq 0 30), Some (nth_frame <$> seq 0 31), BRange 0, None).
Proof. vm_compute. reflexivity. Qed.

(** ** The scope of the lock *)

(** C5, as amended.  In every state the program reaches, the broadcaster
    holds [clientsMutex] exactly while it is inside the [range clients]
    loop, so every send to a viewer queue is made with the lock held; each
    of these sends is enabled whatever the viewers do, so the lock is held
    for one non-blocking [select] per registered viewer.  A session holds
    the lock exactly between its [Lock] and [Unlock] around the insert or the
    delete of its key, and releases it within two of its own steps, which do
    not touch any queue. *)
Theorem lock_scope p o l acts σ :
  run acts (main p o l) = Some σ →
  (∀ src f todo, bcast σ = BFan src f todo → mutex σ = Some OBcast) ∧
  (mutex σ = Some OBcast → in_fan (bcast σ) = true) ∧
  (∀ i s, sessions σ !! i = Some s →
     (mutex σ = Some (OSess i) ↔ crit (spc s) = true)) ∧
  (∀ src f todo c, status σ = Running → bcast σ = BFan src f todo → c ∈ todo →
     is_Some (step (ABcast c) σ)) ∧
  (∀ i, status σ = Running → mutex σ = Some (OSess i) →
     ∃ σ', (run [ASess i IoOk] σ = Some σ' ∨
            run [ASess i IoOk; ASess i IoOk] σ = Some σ') ∧
       mutex σ' = None ∧ heap σ' = heap σ).
Proof.
  intros Hrun. pose proof (reachable_inv _ _ _ _ _ Hrun) as Hinv.
  destruct (inv_m _ Hinv) as [Hb Hs _]. split_and!.
  - intros src f todo Hf. apply Hb. by rewrite Hf.
  - apply Hb.
  - done.
  - intros src f todo c Hst Hf Hin.
    destruct (fan_step _ _ _ _ _ Hinv Hst Hf Hin) as (ch & ch' & _ & _ & _ & Heq).
    by rewrite Heq.
  - intros i Hst Hm. by apply session_releases.
Qed.

Lemma run_acts_fan : run acts_fan (main ":8080" SetupOk None) = Some in_fan_out.
Proof. vm_compute. reflexivity. Qed.

(** C5, the claim as stated fails.  After [acts_fan] the broadcaster holds
    [clientsMutex], and its next step, taken with the lock held before and
    after, is the send of [f1] to the viewer's queue. *)
Lemma enqueue_under_lock :
  ∃ σ', run acts_fan (main ":8080" SetupOk None) = Some in_fan_out ∧
    mutex in_fan_out = Some OBcast ∧
    step (ABcast 0) in_fan_out = Some σ' ∧
    heap in_fan_out = [MkChan [] 30 false []] ∧
    heap σ' = [MkChan [f1] 30 false [f1]] ∧
    mutex σ' = Some OBcast.
Proof. eexists. split_and!; [exact run_acts_fan|done|vm_compute; reflexivity|done..]. Qed.

Lemma step_nonempty act σ σ' :
  step act σ = Some σ' → inv_nonempty σ → inv_nonempty σ'.
Proof.
  intros H [Hp Hl]. apply step_cases in H. destruct act as [pick|ad|i io|o|d fr].
  - destruct H; split; simpl; try done.
    + by intros ?? [= _ <-].
    + intros g [Hg|Hg]%elem_of_app; [eauto|].
      apply list_elem_of_singleton in Hg as ->. eauto.
  - by subst.
  - by destruct H.
  - destruct (restart_frame o σ) as (_ & _ & _ & _ & Hb & Hpp & _). subst.
    split; rewrite ?Hb, ?Hpp; done.
  - by destruct H as [ds ->].
Qed.

Lemma reachable_nonempty p o l acts σ :
  run acts (main p o l) = Some σ → inv_nonempty σ.
Proof.
  assert (inv_nonempty (main p o l)) as H0.
  { destruct (main_fields p o l) as (_ & _ & _ & _ & Hb & Hp).
    split; rewrite ?Hb, ?Hp; [set_solver|done]. }
  revert H0. generalize (main p o l). clear.
  induction acts as [|act acts IH]; intros σ0 H0 H; simpl in H.
  - by simplify_eq.
  - destruct (step act σ0) as [σ1|] eqn:Hst; [|done]. simpl in H.
    eapply IH; [|done]. by eapply step_nonempty.
Qed.

(** C7.  When the broadcaster receives a zero-length frame it logs
    "Received empty frame, skipping..." and goes on to the next frame: the
    process keeps running, [cameraDevice] and the streaming state of every
    device are unchanged (no restart), no queue and not the registry are
    touched, nothing is published; and no frame in a viewer queue or written
    to a viewer is ever empty. *)
Theorem empty_frame_skipped p o l acts σ pick src dev f rest :
  run acts (main p o l) = Some σ → status σ = Running →
  bcast σ = BRange src → devices σ !! src = Some dev →
  output dev = f :: rest → length f = 0 →
  ∃ σ', step (ABcast pick) σ = Some σ' ∧
    σ' = add_log "Received empty frame, skipping..."
           (set_devices (<[src := MkDevice rest (streaming dev)]> (devices σ)) σ) ∧
    status σ' = Running ∧ bcast σ' = BRange src ∧
    cameraDevice σ' = cameraDevice σ ∧
    (streaming <$> devices σ') = (streaming <$> devices σ) ∧
    heap σ' = heap σ ∧ clients σ' = clients σ ∧ published σ' = published σ ∧
    (∀ c ch g, heap σ' !! c = Some ch → g ∈ buf ch → length g ≠ 0) ∧
    (∀ i s g, sessions σ' !! i = Some s → g ∈ out s → length g ≠ 0).
Proof.
  intros Hrun Hst Hb Hd Ho Hlen.
  assert (step (ABcast pick) σ =
    Some (add_log "Received empty frame, skipping..."
           (set_devices (<[src := MkDevice rest (streaming dev)]> (devices σ)) σ))) as Hstep.
  { unfold step, frameBroadcaster. rewrite Hst, Hb, Hd. simpl. rewrite Ho.
    by rewrite (proj2 (Nat.eqb_eq _ _) Hlen). }
  eexists. split; [exact Hstep|]. split_and!; try done.
  - simpl. rewrite list_fmap_insert. simpl. apply list_insert_id.
    by rewrite list_lookup_fmap, Hd.
  - intros c ch g Hh Hg. simpl in Hh.
    pose proof (reachable_inv _ _ _ _ _ Hrun) as Hinv.
    pose proof (reachable_nonempty _ _ _ _ _ Hrun) as [Hne _].
    apply Hne. eapply elem_of_sublist; [|apply (hist_sub _ (inv_h _ Hinv) _ _ Hh)].
    apply elem_of_app. left.
    assert (c < length (sessions σ)) as Hlt.
    { rewrite <- (shape_len _ (inv_s _ Hinv)). by eapply lookup_lt_Some. }
    apply lookup_lt_is_Some in Hlt as [s Hs].
    eapply elem_of_sublist; [|apply (hist_out _ (inv_h _ Hinv) _ _ _ Hs Hh)].
    apply elem_of_app. by right.
  - intros i s g Hi Hg. simpl in Hi.
    pose proof (reachable_nonempty _ _ _ _ _ Hrun) as [Hne _].
    destruct (session_history _ _ _ (reachable_inv _ _ _ _ _ Hrun) Hi) as (ch & _ & _ & _ & Hsub & _).
    apply Hne. by eapply elem_of_sublist.
Qed.

(** C9.  With no registered viewer, a publish of [f] is two steps of the
    broadcaster, [Lock] and [Unlock]; it does not block or panic, and it
    leaves the whole program state as it was, apart from the broadcaster
    being back at its [range] and the history of published frames: no queue
    holds [f].  A viewer that connects afterwards gets a new, empty
    queue. *)
Theorem publish_no_viewers σ src f :
  status σ = Running → bcast σ = BLock src f → mutex σ = None → clients σ = ∅ →
  publish_acts σ = [ABcast 0; ABcast 0] ∧
  run (publish_acts σ) σ = Some (set_bcast (BRange src) (add_published f σ)) ∧
  heap (set_bcast (BRange src) (add_published f σ)) = heap σ ∧
  (∀ a, let σ' := connect a (set_bcast (BRange src) (add_published f σ)) in
        heap σ' !! length (heap σ) = Some (MkChan [] 30 false []) ∧
        sessions σ' !! length (sessions σ)
          = Some (MkSession SRegLock (length (heap σ)) a [])).
Proof.
  intros Hst Hb Hm Hc.
  assert (publish_acts σ = [ABcast 0; ABcast 0]) as Hacts.
  { unfold publish_acts. by rewrite Hc, elements_empty. }
  split_and!; try done.
  - rewrite Hacts. simpl. unfold step, frameBroadcaster. rewrite Hst, Hb, Hm. simpl.
    rewrite Hc, Hst. simpl. rewrite decide_True by done.
    destruct σ; simpl in *. by subst.
  - intros a. simpl. split.
    + by rewrite lookup_app_r, Nat.sub_diag.
    + by rewrite lookup_app_r, Nat.sub_diag.
Qed.

(** C10.  Whatever [setupCamera] does inside [restartCamera], the handler
    of [/restart] responds "Camera restarted.": the response is the same for
    a failed and for a successful reopen, although after a failure
    [cameraDevice] is nil and the failure is logged, and after a success
    [cameraDevice] is the new device and nothing is logged. *)
Theorem restart_response_same o σ :
  responses (resetCameraWeb o σ) = responses σ ++ ["Camera restarted."] ∧
  (∀ o', responses (resetCameraWeb o' σ) = responses (resetCameraWeb o σ)) ∧
  (∀ e, cameraDevice (resetCameraWeb (OpenFail e) σ) = None ∧
        logs (resetCameraWeb (OpenFail e) σ)
          = logs σ ++ ["failed to restart camera: failed to open device: " +:+ e]) ∧
  (∀ e, cameraDevice (resetCameraWeb (StartFail e) σ) = None ∧
        logs (resetCameraWeb (StartFail e) σ)
          = logs σ ++ ["failed to restart camera: camera start: " +:+ e]) ∧
  (∃ d, cameraDevice (resetCameraWeb SetupOk σ) = Some d ∧
        logs (resetCameraWeb SetupOk σ) = logs σ).
Proof.
  unfold resetCameraWeb, restartCamera.
  destruct σ as [st cam ds hp cl mx b ss lg so rs pb]. simpl.
  split_and!.
  - destruct cam, o; reflexivity.
  - intros o'. destruct cam, o, o'; reflexivity.
  - intros e. destruct cam; split; reflexivity.
  - intros e. destruct cam; split; reflexivity.
  - destruct cam; simpl; eexists; split; reflexivity.
Qed.






Lemma close_device_length d ds : length (close_device d ds) = length ds.
Proof. unfold close_device. case_match; [|done]. by rewrite length_insert. Qed.



(** [frames] is assigned once, on line 52: whatever happens afterwards, the
    broadcaster keeps reading the channel of the same device, or has
    returned. *)
Lemma frames_bound_once act σ σ' d :
  step act σ = Some σ' → bsrc (bcast σ) = Some d →
  bsrc (bcast σ') = Some d ∨ bcast σ' = BDone.
Proof.
  intros H Hd. apply step_cases in H. destruct act as [pick|ad|i io|o|dv fr].
  - destruct H as [| | | | | | |]; simpl; auto.
    all: rewrite H in Hd; simpl in Hd; by auto.
  - subst. auto.
  - destruct H; auto.
  - destruct (restart_frame o σ) as (_ & _ & _ & _ & Hb & _). subst. rewrite Hb. auto.
  - destruct H as [ds ->]. auto.
Qed.

(** Once the broadcaster has returned nothing is published any more. *)
Lemma done_stable act σ σ' :
  step act σ = Some σ' → bcast σ = BDone →
  bcast σ' = BDone ∧ published σ' = published σ.
Proof.
  intros H Hd. apply step_cases in H. destruct act as [pick|ad|i io|o|dv fr].
  - destruct H; simpl; try done; congruence.
  - subst. auto.
  - destruct H; auto.
  - destruct (restart_frame o σ) as (_ & _ & _ & _ & Hb & Hp & _). subst.
    rewrite Hb, Hp. auto.
  - destruct H as [ds ->]. auto.
Qed.

Lemma run_done acts σ σ' :
  run acts σ = Some σ' → bcast σ = BDone →
  bcast σ' = BDone ∧ published σ' = published σ.
Proof.
  revert σ. induction acts as [|act acts IH]; intros σ H Hd; simpl in H.
  - by simplify_eq.
  - destruct (step act σ) as [σ1|] eqn:Hst; [|done]. simpl in H.
    destruct (done_stable _ _ _ Hst Hd) as [Hd1 Hp1].
    destruct (IH _ H Hd1) as [? ?]. split; [done|congruence].
Qed.

(** C4, the code at the failing input.  A viewer is registered and has
    received [f1]; the camera is restarted through [/restart] and the reopen
    succeeds; the new device delivers [f2].  The broadcaster still reads the
    output channel of the old device, which the restart closed: its loop
    ends and it returns.  The viewer is still registered and waiting, [f2]
    stays in the output channel of the new device, and whatever happens
    afterwards nothing is published and the viewer receives nothing beyond
    [f1].  In general a restart never changes the channel the broadcaster
    reads. *)
Theorem restart_starves_viewers :
  run acts_restart (main ":8080" SetupOk None) = Some starved ∧
  cameraDevice starved = Some 1 ∧
  devices starved !! 1 = Some (MkDevice [f2] true) ∧
  0 ∈ clients starved ∧
  sessions starved !! 0 = Some (MkSession SLoop 0 "10.0.0.2:5000" [f1]) ∧
  bcast starved = BDone ∧
  (∀ pick, step (ABcast pick) starved = None) ∧
  (∀ acts σ, run acts starved = Some σ →
     bcast σ = BDone ∧ published σ = [f1] ∧
     (∀ pick, step (ABcast pick) σ = None) ∧
     ∀ s, sessions σ !! 0 = Some s → out s `sublist_of` [f1]) ∧
  (∀ o σ d, bsrc (bcast σ) = Some d →
     bsrc (bcast (resetCameraWeb o σ)) = Some d).
Proof.
  assert (run acts_restart (main ":8080" SetupOk None) = Some starved) as Hrun
    by (vm_compute; reflexivity).
  split_and!; try done.
  2: { intros o σ d Hd. by destruct (restart_frame o σ) as (_ & _ & _ & _ & -> & _). }
  intros acts σ Hσ.
  destruct (run_done _ _ _ Hσ eq_refl) as [Hd Hp]. split_and!; try done.
  - intros pick. unfold step, frameBroadcaster. rewrite Hd. by destruct (status σ).
  - intros s Hs.
    assert (inv σ) as Hinv.
    { eapply run_inv; [exact Hσ|]. eapply reachable_inv. exact Hrun. }
    destruct (session_history _ _ _ Hinv Hs) as (ch & _ & _ & _ & Hsub & _).
    by rewrite Hp in Hsub.
Qed.

Lemma broadcast_loop_app pre more st :
  Forall healthy pre →
  Recorder.broadcast_loop (pre ++ more) st
  = Recorder.broadcast_loop more (Recorder.broadcast_loop pre st).1.
Proof.
  intros Hpre. revert st. induction Hpre as [|it pre Hit Hpre IH]; intros st; [done|].
  simpl. destruct (Nat.eqb_spec (length (Recorder.frame it)) 0) as [Hz|Hnz].
  - apply IH.
  - destruct Hit as [Hz|Hw]; [done|]. rewrite Hw. apply IH.
Qed.

(** C3, the claim as stated fails.  In the recording variant the write of
    [f1] to ffmpeg fails: the broadcaster logs it and returns, and [f2] is
    neither read from the source nor offered to the viewers, although their
    channel is empty. *)
Lemma sink_failure_stops_fanout :
  Recorder.frameBroadcaster None None its_fail rec0
  = (Recorder.MkRState Running [] [] ["Failed to write frame to FFmpeg: broken pipe"] []
       (Some 0) [MkDevice [] true],
     [Recorder.MkIter f2 None 10 16 SetupOk 0]).
Proof. reflexivity. Qed.

(** C3, as amended.  In the recording variant, when the write of a
    non-empty frame to ffmpeg fails after any number of iterations without
    such a failure, the broadcaster logs "Failed to write frame to FFmpeg:
    ..." and returns: the failing frame is not offered to the viewers and
    not written to the pipe, the remaining frames are not read, and the
    process and the camera are left as they were. *)
Theorem sink_write_failure_ends_broadcast pre it rest st e :
  Forall healthy pre →
  length (Recorder.frame it) ≠ 0 → Recorder.write_err it = Some e →
  let before := (Recorder.broadcast_loop pre st).1 in
  let after := (Recorder.frameBroadcaster None None (pre ++ it :: rest) st).1 in
  Recorder.frameBroadcaster None None (pre ++ it :: rest) st
  = (Recorder.rlog ("Failed to write frame to FFmpeg: " +:+ e)
       (Recorder.drain (Recorder.drained it) before), rest) ∧
  Recorder.encodedFrameChan after
  = drop (Recorder.drained it) (Recorder.encodedFrameChan before) ∧
  Recorder.ffmpegIn after = Recorder.ffmpegIn before ∧
  Recorder.rstatus after = Recorder.rstatus before ∧
  Recorder.rcamera after = Recorder.rcamera before.
Proof.
  intros Hpre Hnz Hw before after. subst before after.
  assert (Recorder.frameBroadcaster None None (pre ++ it :: rest) st
          = (Recorder.rlog ("Failed to write frame to FFmpeg: " +:+ e)
               (Recorder.drain (Recorder.drained it) (Recorder.broadcast_loop pre st).1),
             rest)) as Heq.
  { unfold Recorder.frameBroadcaster. rewrite broadcast_loop_app by done. simpl.
    rewrite (proj2 (Nat.eqb_neq _ _) Hnz), Hw. done. }
  rewrite Heq. done.
Qed.

(** ** The theorems at concrete inputs *)

Lemma publish_try_enqueue_witness :
  run acts_lock (main ":8080" SetupOk None) = Some at_lock ∧
  status at_lock = Running ∧ bcast at_lock = BLock 0 f1 ∧ mutex at_lock = None ∧
  ∃ σ', run (publish_acts at_lock) at_lock = Some σ' ∧
    status σ' = Running ∧ bcast σ' = BRange 0 ∧ mutex σ' = None ∧
    clients σ' = clients at_lock ∧ sessions σ' = sessions at_lock ∧
    ∀ c ch, heap at_lock !! c = Some ch →
      ∃ ch', heap σ' !! c = Some ch' ∧ cap ch' = cap ch ∧ closed ch' = closed ch ∧
        buf ch' = if decide (c ∈ clients at_lock ∧ length (buf ch) < cap ch)
                  then buf ch ++ [f1] else buf ch.
Proof.
  split_and!; [vm_compute; reflexivity|reflexivity..|].
  apply (publish_try_enqueue ":8080" SetupOk None acts_lock at_lock 0 f1);
    [vm_compute; reflexivity|reflexivity..].
Defined.

Lemma viewer_frames_subsequence_witness :
  run acts_restart (main ":8080" SetupOk None) = Some starved ∧
  sessions starved !! 0 = Some (MkSession SLoop 0 "10.0.0.2:5000" [f1]) ∧
  ∃ ch, heap starved !! 0 = Some ch ∧
    [f1] ++ buf ch `sublist_of` offered ch ∧
    offered ch `sublist_of` published starved ∧
    [f1] `sublist_of` published starved ∧
    (0 ∈ clients starved → offered ch ++ pending starved 0 `suffix_of` published starved).
Proof.
  split_and!; [vm_compute; reflexivity|reflexivity|].
  apply (viewer_frames_subsequence ":8080" SetupOk None acts_restart starved 0
           (MkSession SLoop 0 "10.0.0.2:5000" [f1]));
    [vm_compute; reflexivity|reflexivity].
Defined.

Lemma registry_invariant_witness :
  run acts_fan (main ":8080" SetupOk None) = Some in_fan_out ∧
  (∀ c, c ∈ clients in_fan_out →
     ∃ ch, heap in_fan_out !! c = Some ch ∧ closed ch = false).
Proof.
  split; [vm_compute; reflexivity|].
  apply (registry_invariant ":8080" SetupOk None acts_fan in_fan_out).
  vm_compute; reflexivity.
Defined.

Lemma lock_scope_witness :
  run acts_fan (main ":8080" SetupOk None) = Some in_fan_out ∧
  (∀ src f todo, bcast in_fan_out = BFan src f todo → mutex in_fan_out = Some OBcast).
Proof.
  split; [vm_compute; reflexivity|].
  apply (lock_scope ":8080" SetupOk None acts_fan in_fan_out).
  vm_compute; reflexivity.
Defined.

Lemma empty_frame_skipped_witness :
  run [ABcast 0; ACapture 0 []; ACapture 0 f1] (main ":8080" SetupOk None) = Some glitch ∧
  status glitch = Running ∧ bcast glitch = BRange 0 ∧
  devices glitch !! 0 = Some (MkDevice [[]; f1] true) ∧
  ∃ σ', step (ABcast 0) glitch = Some σ' ∧
    logs σ' = ["Serving images on [:8080/stream]"; "Received empty frame, skipping..."] ∧
    bcast σ' = BRange 0 ∧ cameraDevice σ' = Some 0 ∧
    devices σ' = [MkDevice [f1] true].
Proof.
  split_and!; [vm_compute; reflexivity|reflexivity..|].
  destruct (empty_frame_skipped ":8080" SetupOk None
              [ABcast 0; ACapture 0 []; ACapture 0 f1] glitch 0 0
              (MkDevice [[]; f1] true) [] [f1])
    as (σ' & Hstep & -> & _); [vm_compute; reflexivity|reflexivity..|].
  eexists. split; [exact Hstep|]. split_and!; reflexivity.
Defined.

Lemma publish_no_viewers_witness :
  status idle = Running ∧ bcast idle = BLock 0 f1 ∧ mutex idle = None ∧
  clients idle = ∅ ∧
  run (publish_acts idle) idle = Some (set_bcast (BRange 0) (add_published f1 idle)).
Proof.
  split_and!; [reflexivity..|].
  apply (publish_no_viewers idle 0 f1); reflexivity.
Defined.


Lemma sink_write_failure_ends_broadcast_witness :
  Forall healthy [Recorder.MkIter f1 None 10 15 SetupOk 0] ∧
  Recorder.frameBroadcaster None None
    ([Recorder.MkIter f1 None 10 15 SetupOk 0]
       ++ Recorder.MkIter f2 (Some "broken pipe") 10 16 SetupOk 0
       :: [Recorder.MkIter f1 None 10 17 SetupOk 0]) rec0
  = (Recorder.MkRState Running [f1] [f1]
       ["Failed to write frame to FFmpeg: broken pipe"] [] (Some 0) [MkDevice [] true],
     [Recorder.MkIter f1 None 10 17 SetupOk 0]).
Proof.
  assert (Forall healthy [Recorder.MkIter f1 None 10 15 SetupOk 0]) as Hpre.
  { constructor; [by right|constructor]. }
  split; [exact Hpre|].
  destruct (sink_write_failure_ends_broadcast
              [Recorder.MkIter f1 None 10 15 SetupOk 0]
              (Recorder.MkIter f2 (Some "broken pipe") 10 16 SetupOk 0)
              [Recorder.MkIter f1 None 10 17 SetupOk 0] rec0 "broken pipe" Hpre)
    as [Heq _]; [done|reflexivity|].
  rewrite Heq. reflexivity.
Defined.

(** * More of the code *)

(** ** Bounded queues *)

Lemma step_cap act σ σ' : step act σ = Some σ' → inv_cap σ → inv_cap σ'.
Proof.
  intros H Hinv. apply step_cases in H. unfold inv_cap in *.
  destruct act as [pick|ad|i io|o|d fr].
  - destruct H; simpl; try done.
    intros c c0 Hc. apply list_lookup_insert_Some in Hc as [(-> & <- & _)|[_ Hc]]; [|eauto].
    destruct (Hinv _ _ H1) as [Hcap Hlen].
    apply try_send_Some in H2 as (_ & _ & Hc' & _ & [[Hlt ->]|[_ ->]]); rewrite Hc'.
    + split; [done|]. rewrite length_app. simpl. lia.
    + done.
  - subst. simpl. intros c ch Hc.
    apply lookup_app_Some in Hc as [Hc|[_ Hc]]; [eauto|].
    apply list_lookup_singleton_Some in Hc as [_ <-]. simpl. split; [done|lia].
  - destruct H; simpl; try done.
    all: intros c c0 Hc; apply list_lookup_insert_Some in Hc as [(_ & <- & _)|[_ Hc]]; [|by eauto].
    all: match goal with Hh : heap _ !! _ = Some _ |- _ => destruct (Hinv _ _ Hh) as [Hcap Hlen] end.
    all: simpl; split; [done|].
    all: try (rewrite H2 in Hlen; simpl in Hlen; lia).
    done.
  - destruct (restart_frame o σ) as (Hh & _). subst. by rewrite Hh.
  - by destruct H as [ds ->].
Qed.

Lemma reachable_cap p o l acts σ : run acts (main p o l) = Some σ → inv_cap σ.
Proof.
  assert (inv_cap (main p o l)) as H0.
  { intros c' ch' Hc'. destruct (main_fields p o l) as (Hh & _). by rewrite Hh in Hc'. }
  revert H0. generalize (main p o l).
  induction acts as [|act acts IH]; intros σ0 H0 H; simpl in H.
  - by simplify_eq.
  - destruct (step act σ0) as [σ1|] eqn:Hst; [|done]. simpl in H.
    eapply IH; [|done]. by eapply step_cap.
Qed.

(** X1.  In every state the program reaches, every viewer channel has the
    capacity 30 it was made with and holds at most 30 frames, however slow
    its viewer is. *)
Theorem queues_bounded p o l acts σ c ch :
  run acts (main p o l) = Some σ → heap σ !! c = Some ch →
  cap ch = 30 ∧ length (buf ch) ≤ 30.
Proof.
  intros Hrun Hc.
  destruct (reachable_cap _ _ _ _ _ Hrun _ _ Hc) as [Hcap Hlen].
  split; [done|]. by rewrite <- Hcap.
Qed.

(** ** The critical section *)

(** X2.  In every state the program reaches at most one goroutine is
    inside a critical section: no two sessions are, no session is while the
    broadcaster is in its loop over [clients], and nobody is while the
    mutex is free.  A step changes [clients] only if it is a step of a
    session that holds the mutex before and after it. *)
Theorem mutual_exclusion p o l acts σ :
  run acts (main p o l) = Some σ →
  (∀ i j s t, sessions σ !! i = Some s → sessions σ !! j = Some t →
     crit (spc s) = true → crit (spc t) = true → i = j) ∧
  (∀ i s, sessions σ !! i = Some s → crit (spc s) = true → in_fan (bcast σ) = false) ∧
  (mutex σ = None →
     in_fan (bcast σ) = false ∧
     ∀ i s, sessions σ !! i = Some s → crit (spc s) = false) ∧
  (∀ act σ', step act σ = Some σ' → clients σ' ≠ clients σ →
     ∃ i io s, act = ASess i io ∧ sessions σ !! i = Some s ∧
       mutex σ = Some (OSess i) ∧ mutex σ' = Some (OSess i) ∧
       in_fan (bcast σ) = false).
Proof.
  intros Hrun. pose proof (reachable_inv _ _ _ _ _ Hrun) as Hinv.
  destruct (inv_m _ Hinv) as [Hb Hs Hv].
  assert (∀ i s, sessions σ !! i = Some s → crit (spc s) = true →
            in_fan (bcast σ) = false) as Hexcl.
  { intros i s Hi Hc. apply (Hs _ _ Hi) in Hc.
    destruct (in_fan (bcast σ)) eqn:Hf; [|done].
    assert (mutex σ = Some OBcast) by (by apply Hb). congruence. }
  split_and!.
  - intros i j s t Hi Hj Hci Hcj.
    apply (Hs _ _ Hi) in Hci. apply (Hs _ _ Hj) in Hcj. congruence.
  - done.
  - intros Hm. split.
    + destruct (in_fan (bcast σ)) eqn:Hf; [|done].
      assert (mutex σ = Some OBcast) by (by apply Hb). congruence.
    + intros i s Hi. destruct (crit (spc s)) eqn:Hc; [|done].
      apply (Hs _ _ Hi) in Hc. congruence.
  - intros act σ' Hstep Hne. apply step_cases in Hstep.
    destruct act as [pick|ad|i io|o'|d fr].
    + by destruct Hstep.
    + by subst.
    + destruct Hstep as [msg|s Hi Hpc Hm|s Hi Hpc|s o' Hi Hpc Hm|s Hi Hpc
                  |s ch f rest Hi Hpc Hh Hbuf|s ch f rest msg Hi Hpc Hh Hbuf
                  |s Hi Hpc Hm|s Hi Hpc|s o' Hi Hpc Hm|s ch Hi Hpc Hh Hclosed];
        try done.
      all: assert (mutex σ = Some (OSess i)) as Hm by (apply (Hs _ _ Hi); by rewrite Hpc).
      all: exists i, io, s; split_and!; try done.
      all: eapply Hexcl; [exact Hi|by rewrite Hpc].
    + destruct (restart_frame o' σ) as (_ & _ & Hc & _). subst. by rewrite Hc in Hne.
    + by destruct Hstep as [ds ->].
Qed.

(** ** The device handle *)





(** ** Panics *)




(** ** Every captured frame is published once *)

Lemma waiting_close d c ds : waiting d (close_device c ds) = waiting d ds.
Proof.
  unfold waiting, close_device. destruct (ds !! c) as [dev|] eqn:Hc; [|done].
  destruct (decide (c = d)) as [->|Hne].
  - rewrite list_lookup_insert_eq by (by eapply lookup_lt_Some). by rewrite Hc.
  - by rewrite list_lookup_insert_ne.
Qed.

Lemma waiting_new d ds dev :
  output dev = [] → waiting d (ds ++ [dev]) = waiting d ds.
Proof.
  intros Hout. unfold waiting. destruct (ds !! d) as [dv|] eqn:Hd.
  - by rewrite (lookup_app_l_Some _ _ _ _ Hd).
  - apply lookup_ge_None in Hd.
    destruct ((ds ++ [dev]) !! d) as [dv|] eqn:Hd'; [|done].
    apply lookup_app_Some in Hd' as [Hd'|[_ Hd']].
    + apply lookup_lt_Some in Hd'. lia.
    + apply list_lookup_singleton_Some in Hd' as [_ <-]. done.
Qed.

Lemma waiting_restart d o σ :
  waiting d (devices (resetCameraWeb o σ)) = waiting d (devices σ).
Proof.
  unfold resetCameraWeb, restartCamera.
  destruct σ as [st cam ds hp cl mx b ss lg so rs pb]. simpl.
  destruct cam as [c|], o; simpl; rewrite ?waiting_new by done; rewrite ?waiting_close; done.
Qed.

Lemma step_backlog act σ σ' d :
  step act σ = Some σ' → bsrc (bcast σ) = Some d ∨ bcast σ = BDone →
  backlog d σ' = backlog d σ ++ captured d act.
Proof.
  intros H Hb. unfold step in H. destruct (status σ); [|done..].
  unfold backlog. destruct act as [pick|ad|i io|o|d' fr]; simpl.
  - rewrite app_nil_r. unfold frameBroadcaster in H.
    destruct (bcast σ) as [|src|src f|src f todo|] eqn:Hbc; simpl in Hb.
    + by destruct Hb.
    + destruct Hb as [[= ->]|?]; [|done].
      destruct (devices σ !! d) as [dev|] eqn:Hd; [|done]. simpl in H.
      unfold waiting. rewrite Hd. simpl.
      destruct (output dev) as [|f rest] eqn:Hout.
      * destruct (streaming dev); simplify_eq. simpl. rewrite Hd. simpl. by rewrite Hout.
      * destruct (Nat.eqb_spec (length f) 0) as [Hz|Hnz]; simplify_eq; simpl.
        -- rewrite list_lookup_insert_eq by (by eapply lookup_lt_Some).
           simpl. rewrite Hbc. simpl. by rewrite filter_cons_False by (by intros ?).
        -- rewrite list_lookup_insert_eq by (by eapply lookup_lt_Some).
           simpl. by rewrite filter_cons_True by done.
    + destruct (mutex σ); simplify_eq. simpl. by rewrite <- app_assoc.
    + repeat (case_match || simplify_option_eq); simpl; by rewrite ?Hbc.
    + done.
  - simplify_eq. simpl. by rewrite app_nil_r.
  - rewrite app_nil_r. apply imageServ_case in H. by destruct H.
  - simplify_eq. rewrite app_nil_r, waiting_restart.
    by destruct (restart_frame o σ) as (_ & _ & _ & _ & -> & -> & _).
  - unfold capture in H. destruct (devices σ !! d') as [dev|] eqn:Hd; [|done].
    simpl in H. destruct (streaming dev); simplify_eq. simpl.
    rewrite <- !app_assoc. f_equal. f_equal.
    unfold waiting. case_decide as Heq.
    + subst d'. rewrite list_lookup_insert_eq by (by eapply lookup_lt_Some).
      rewrite Hd. simpl. by rewrite filter_app.
    + rewrite list_lookup_insert_ne by done. by rewrite app_nil_r.
Qed.

(** X5.  Once [frames] is bound to the output channel of device [d],
    along any run: the frames published, followed by the frame received but
    not yet published and the non-empty frames waiting in that channel,
    grow exactly by the non-empty frames device [d] delivers, in order.  So
    the broadcaster publishes each of them at most once, in the order of
    capture, publishes nothing else, and never takes a published frame
    back. *)
Theorem captured_frames_published_once acts : ∀ σ σ' d,
  run acts σ = Some σ' → bsrc (bcast σ) = Some d →
  backlog d σ' = backlog d σ ++ mjoin (captured d <$> acts) ∧
  published σ `prefix_of` published σ' ∧
  published σ' `prefix_of` backlog d σ ++ mjoin (captured d <$> acts).
Proof.
  assert (∀ acts σ σ' d, run acts σ = Some σ' →
            bsrc (bcast σ) = Some d ∨ bcast σ = BDone →
            backlog d σ' = backlog d σ ++ mjoin (captured d <$> acts) ∧
            published σ `prefix_of` published σ') as Hgen.
  { clear. induction acts as [|act acts IH]; intros σ σ' d H Hb; simpl in H.
    - simplify_eq. simpl. by rewrite app_nil_r.
    - destruct (step act σ) as [σ1|] eqn:Hstep; [|done]. simpl in H.
      assert (bsrc (bcast σ1) = Some d ∨ bcast σ1 = BDone) as Hb1.
      { destruct Hb as [Hb|Hb].
        - by eapply frames_bound_once.
        - right. by eapply done_stable. }
      destruct (IH _ _ _ H Hb1) as [Heq Hpre]. split.
      + rewrite Heq, (step_backlog _ _ _ _ Hstep Hb). simpl. by rewrite <- app_assoc.
      + etrans; [|exact Hpre].
        apply step_cases in Hstep. destruct act as [pick|ad|i io|o|d' fr].
        * destruct Hstep; simpl; try done. by apply prefix_app_r.
        * by subst.
        * by destruct Hstep.
        * destruct (restart_frame o σ) as (_ & _ & _ & _ & _ & Hp & _). subst. by rewrite Hp.
        * by destruct Hstep as [ds ->]. }
  intros σ σ' d H Hb. destruct (Hgen acts σ σ' d H (or_introl Hb)) as [Heq Hpre].
  split_and!; try done. rewrite <- Heq. unfold backlog. by apply prefix_app_r.
Qed.

(** ** The life of a session *)

Lemma advances_refl s : advances s s.
Proof. by split_and!. Qed.

Lemma advances_trans s1 s2 s3 : advances s1 s2 → advances s2 s3 → advances s1 s3.
Proof.
  intros (Hc1 & Ha1 & Hr1 & Hp1 & Hf1) (Hc2 & Ha2 & Hr2 & Hp2 & Hf2).
  split_and!; try congruence; try lia.
  - by etrans.
  - intros H. rewrite Hf2 by lia. by apply Hf1.
Qed.

Lemma step_advances act σ σ' i s :
  step act σ = Some σ' → sessions σ !! i = Some s →
  ∃ s', sessions σ' !! i = Some s' ∧ advances s s'.
Proof.
  intros H Hi. apply step_cases in H. destruct act as [pick|ad|j io|o|d fr].
  - exists s. split; [by destruct H|apply advances_refl].
  - subst. exists s. split; [|apply advances_refl]. simpl. by apply lookup_app_l_Some.
  - assert (∀ t t', sessions σ !! j = Some t → advances t t' →
              ∃ s', <[j := t']> (sessions σ) !! i = Some s' ∧ advances s s') as Hupd.
    { intros t t' Hj Hadv. destruct (decide (j = i)) as [->|Hne].
      - simplify_eq. exists t'. split; [|done].
        apply list_lookup_insert_eq. by eapply lookup_lt_Some.
      - exists s. split; [by rewrite list_lookup_insert_ne|apply advances_refl]. }
    destruct H as [msg|t Hj Hpc Hm|t Hj Hpc|t o' Hj Hpc Hm|t Hj Hpc
                  |t ch f rest Hj Hpc Hh Hbuf|t ch f rest msg Hj Hpc Hh Hbuf
                  |t Hj Hpc Hm|t Hj Hpc|t o' Hj Hpc Hm|t ch Hj Hpc Hh Hclosed];
      simpl.
    1: { exists s. split; [done|apply advances_refl]. }
    all: eapply Hupd; [eassumption|].
    all: unfold advances; simpl; rewrite Hpc; simpl; split_and!; try done; try lia.
    + by apply prefix_app_r.
  - destruct (restart_frame o σ) as (_ & Hs & _). subst. rewrite Hs.
    exists s. split; [done|apply advances_refl].
  - destruct H as [ds ->]. exists s. split; [done|apply advances_refl].
Qed.

Lemma run_advances acts : ∀ σ σ' i s,
  run acts σ = Some σ' → sessions σ !! i = Some s →
  ∃ s', sessions σ' !! i = Some s' ∧ advances s s'.
Proof.
  induction acts as [|act acts IH]; intros σ σ' i s H Hi; simpl in H.
  - simplify_eq. exists s. split; [done|apply advances_refl].
  - destruct (step act σ) as [σ1|] eqn:Hstep; [|done]. simpl in H.
    destruct (step_advances _ _ _ _ _ Hstep Hi) as (s1 & Hi1 & Hadv1).
    destruct (IH _ _ _ _ H Hi1) as (s' & Hi' & Hadv').
    exists s'. split; [done|]. by eapply advances_trans.
Qed.

(** X6.  Along any run from a state the program reaches, a session only
    goes forward: it keeps its channel and its address, its program counter
    never goes back, what it has written is only extended and is final once
    it has left its loop.  Once it has deleted its channel from [clients]
    the channel is never registered again, and once it has returned it stays
    returned and its channel is closed. *)
Theorem session_never_returns p o l acts acts' σ σ' i s :
  run acts (main p o l) = Some σ → run acts' σ = Some σ' →
  sessions σ !! i = Some s →
  ∃ s', sessions σ' !! i = Some s' ∧ advances s s' ∧
    (6 ≤ rank (spc s) → chan s ∉ clients σ') ∧
    (spc s = SExit → spc s' = SExit ∧
       ∃ ch, heap σ' !! chan s = Some ch ∧ closed ch = true).
Proof.
  intros Hrun Hrun' Hi.
  destruct (run_advances _ _ _ _ _ Hrun' Hi) as (s' & Hi' & Hadv).
  exists s'. split_and!; try done.
  - intros Hrank Hin.
    assert (inv σ') as Hinv'.
    { eapply run_inv; [exact Hrun'|]. by eapply reachable_inv. }
    destruct Hadv as (Hc & _ & Hr & _).
    pose proof (shape_chan _ (inv_s _ Hinv') _ _ Hi') as Hci.
    apply (reg_clients _ (inv_r _ Hinv')) in Hin as (t & Ht & Hreg).
    rewrite <- Hc, Hci in Ht. assert (t = s') as -> by congruence.
    destruct (spc s'); simpl in *; try done; lia.
  - intros Hpc. destruct Hadv as (Hc & _ & Hr & _).
    assert (spc s' = SExit) as Hpc'.
    { rewrite Hpc in Hr. destruct (spc s'); simpl in Hr; try lia. done. }
    split; [done|].
    assert (inv σ') as Hinv'.
    { eapply run_inv; [exact Hrun'|]. by eapply reachable_inv. }
    pose proof (shape_chan _ (inv_s _ Hinv') _ _ Hi') as Hci.
    rewrite <- Hc, Hci.
    destruct (heap σ' !! i) as [ch|] eqn:Hh.
    + exists ch. split; [done|]. by apply (reg_closed _ (inv_r _ Hinv') _ _ _ Hi' Hh).
    + apply lookup_ge_None in Hh. apply lookup_lt_Some in Hi'.
      rewrite (shape_len _ (inv_s _ Hinv')) in Hh. lia.
Qed.

(** ** The recording variant: sink, channel and restarts *)

Lemma maintenance_fields it st :
  Recorder.encodedFrameChan (Recorder.maintenance it st) = Recorder.encodedFrameChan st ∧
  Recorder.ffmpegIn (Recorder.maintenance it st) = Recorder.ffmpegIn st ∧
  Recorder.rstatus (Recorder.maintenance it st) = Recorder.rstatus st.
Proof.
  unfold Recorder.maintenance, Recorder.restartCamera.
  destruct st as [s c fi lg so cam ds]; simpl.
  case_match; [|done]. destruct cam, (Recorder.reopen it); done.
Qed.

Lemma offer_chan f st :
  Recorder.encodedFrameChan (Recorder.offer f st)
  = if length (Recorder.encodedFrameChan st) <? 10
    then Recorder.encodedFrameChan st ++ [f] else Recorder.encodedFrameChan st.
Proof. unfold Recorder.offer. by case_match. Qed.

Lemma offer_fields f st :
  Recorder.ffmpegIn (Recorder.offer f st) = Recorder.ffmpegIn st ∧
  Recorder.rstatus (Recorder.offer f st) = Recorder.rstatus st ∧
  Recorder.rcamera (Recorder.offer f st) = Recorder.rcamera st ∧
  Recorder.rdevices (Recorder.offer f st) = Recorder.rdevices st.
Proof. unfold Recorder.offer. by case_match. Qed.

(** The loop runs a prefix of the iterations in which no write fails, and
    stops at the first write that fails. *)
Lemma broadcast_loop_split its : ∀ st,
  ∃ pre, Forall healthy pre ∧
    ((its = pre ∧ (Recorder.broadcast_loop its st).2 = []) ∨
     (∃ it e, its = pre ++ it :: (Recorder.broadcast_loop its st).2 ∧
        length (Recorder.frame it) ≠ 0 ∧ Recorder.write_err it = Some e ∧
        (Recorder.broadcast_loop its st).1
        = Recorder.rlog ("Failed to write frame to FFmpeg: " +:+ e)
            (Recorder.drain (Recorder.drained it) (Recorder.broadcast_loop pre st).1))).
Proof.
  induction its as [|it its IH]; intros st.
  - exists []. split; [constructor|by left].
  - simpl. destruct (Nat.eqb_spec (length (Recorder.frame it)) 0) as [Hz|Hnz].
    + destruct (IH (Recorder.rlog "Received empty frame, skipping..."
                      (Recorder.drain (Recorder.drained it) st))) as (pre & Hpre & Hcase).
      exists (it :: pre). split.
      * constructor; [by left|done].
      * destruct Hcase as [[-> Hnil]|(it' & e & Hits & Hnz' & Hw & Hst)].
        -- by left.
        -- right. exists it', e. split_and!; try done.
           { by rewrite Hits at 1. }
           rewrite Hst. simpl. by rewrite (proj2 (Nat.eqb_eq _ _) Hz).
    + destruct (Recorder.write_err it) as [e|] eqn:Hw.
      * exists []. split; [constructor|]. right. exists it, e. by split_and!.
      * match goal with |- context [Recorder.broadcast_loop its ?s] =>
          destruct (IH s) as (pre & Hpre & Hcase) end.
        exists (it :: pre). split.
        -- constructor; [by right|done].
        -- destruct Hcase as [[-> Hnil]|(it' & e & Hits & Hnz' & Hw' & Hst)].
           ++ by left.
           ++ right. exists it', e. split_and!; try done.
              { by rewrite Hits at 1. }
              rewrite Hst. simpl. by rewrite (proj2 (Nat.eqb_neq _ _) Hnz), Hw.
Qed.

Lemma healthy_sink pre : ∀ st,
  Forall healthy pre →
  Recorder.ffmpegIn (Recorder.broadcast_loop pre st).1
  = Recorder.ffmpegIn st ++ frames_of pre.
Proof.
  unfold frames_of. induction pre as [|it pre IH]; intros st Hpre.
  - simpl. by rewrite app_nil_r.
  - apply Forall_cons in Hpre as [Hit Hpre]. simpl.
    destruct (Nat.eqb_spec (length (Recorder.frame it)) 0) as [Hz|Hnz].
    + rewrite IH by done. rewrite filter_cons_False by (by intros ?). done.
    + destruct Hit as [?|Hw]; [done|]. rewrite Hw. rewrite IH by done.
      match goal with |- context [Recorder.maintenance it ?x] =>
        destruct (maintenance_fields it x) as (_ & -> & _) end.
      match goal with |- context [Recorder.offer ?f ?x] =>
        destruct (offer_fields f x) as (-> & _) end.
      simpl. rewrite filter_cons_True by done. by rewrite <- app_assoc.
Qed.

(** X7.  The recording variant writes to ffmpeg exactly the non-empty
    frames of the iterations before the first failed write, in order, after
    what it had written before; the loop either consumes all iterations or
    stops at the first non-empty frame whose write fails, leaving the
    iterations after it unconsumed. *)
Theorem sink_gets_frames_until_failure its st :
  ∃ pre, pre `prefix_of` its ∧ Forall healthy pre ∧
    Recorder.ffmpegIn (Recorder.frameBroadcaster None None its st).1
    = Recorder.ffmpegIn st ++ frames_of pre ∧
    ((pre = its ∧ (Recorder.frameBroadcaster None None its st).2 = []) ∨
     (∃ it e, its = pre ++ it :: (Recorder.frameBroadcaster None None its st).2 ∧
        length (Recorder.frame it) ≠ 0 ∧ Recorder.write_err it = Some e)).
Proof.
  unfold Recorder.frameBroadcaster.
  destruct (broadcast_loop_split its st) as (pre & Hpre & [[-> Hnil]|(it & e & Hits & Hnz & Hw & Hst)]).
  - exists pre. split_and!; try done. { by apply healthy_sink. } by left.
  - exists pre. split_and!; try done.
    + rewrite Hits at 1. by apply prefix_app_r.
    + rewrite Hst. simpl. by apply healthy_sink.
    + right. eauto.
Qed.

Lemma loop_chan its : ∀ st,
  (length (Recorder.encodedFrameChan st) ≤ 10 →
   length (Recorder.encodedFrameChan (Recorder.broadcast_loop its st).1) ≤ 10) ∧
  ∃ Δ, Recorder.ffmpegIn (Recorder.broadcast_loop its st).1 = Recorder.ffmpegIn st ++ Δ ∧
       Recorder.encodedFrameChan (Recorder.broadcast_loop its st).1
         `sublist_of` Recorder.encodedFrameChan st ++ Δ.
Proof.
  induction its as [|it its IH]; intros st.
  - simpl. split; [done|]. exists []. by rewrite !app_nil_r.
  - simpl. destruct (Nat.eqb_spec (length (Recorder.frame it)) 0) as [Hz|Hnz].
    + match goal with |- context [Recorder.broadcast_loop its ?s] =>
        destruct (IH s) as (Hlen & Δ & Hf & Hc) end.
      simpl in *. split.
      * intros H. apply Hlen. rewrite length_drop. lia.
      * exists Δ. split; [done|]. etrans; [exact Hc|].
        apply sublist_app; [apply sublist_drop|done].
    + destruct (Recorder.write_err it) as [e|] eqn:Hw.
      * simpl. split; [rewrite length_drop; lia|].
        exists []. rewrite !app_nil_r. split; [done|apply sublist_drop].
      * match goal with |- context [Recorder.broadcast_loop its ?s] =>
          destruct (IH s) as (Hlen & Δ & Hf & Hc) end.
        match type of Hf with context [Recorder.maintenance it ?x] =>
          destruct (maintenance_fields it x) as (Hmc & Hmf & _) end.
        rewrite Hmc in Hlen, Hc. rewrite Hmf in Hf.
        match type of Hf with context [Recorder.offer ?f ?x] =>
          destruct (offer_fields f x) as (Hof & _); pose proof (offer_chan f x) as Hoc end.
        rewrite Hof in Hf. rewrite Hoc in Hlen, Hc. simpl in *. split.
        -- intros H. apply Hlen.
           destruct (Nat.ltb_spec (length (drop (Recorder.drained it) (Recorder.encodedFrameChan st))) 10);
             [rewrite length_app; simpl; lia|].
           rewrite length_drop. lia.
        -- exists (Recorder.frame it :: Δ). split.
           { rewrite Hf. by rewrite <- app_assoc. }
           etrans; [exact Hc|].
           destruct (length (drop (Recorder.drained it) (Recorder.encodedFrameChan st)) <? 10).
           ++ rewrite <- app_assoc. apply sublist_app; [apply sublist_drop|done].
           ++ apply sublist_app; [apply sublist_drop|by apply sublist_cons].
Qed.

(** X8.  In the recording variant [encodedFrameChan] never holds more
    than 10 frames if it did not before, and what it holds afterwards is, in
    order, part of what it held before followed by the frames newly written
    to ffmpeg: a frame reaches the viewers only after it was written to the
    recording, and never out of order. *)
Theorem recorder_channel_bounded_and_ordered pipe_err start_err its st :
  (length (Recorder.encodedFrameChan st) ≤ 10 →
   length (Recorder.encodedFrameChan
             (Recorder.frameBroadcaster pipe_err start_err its st).1) ≤ 10) ∧
  ∃ Δ, Recorder.ffmpegIn (Recorder.frameBroadcaster pipe_err start_err its st).1
       = Recorder.ffmpegIn st ++ Δ ∧
       Recorder.encodedFrameChan (Recorder.frameBroadcaster pipe_err start_err its st).1
         `sublist_of` Recorder.encodedFrameChan st ++ Δ.
Proof.
  unfold Recorder.frameBroadcaster. destruct pipe_err; [|destruct start_err].
  - simpl. split; [done|]. exists []. by rewrite !app_nil_r.
  - simpl. split; [done|]. exists []. by rewrite !app_nil_r.
  - apply loop_chan.
Qed.

Lemma maintenance_window it st :
  in_window it →
  Recorder.maintenance it st
  = Recorder.restartCamera (Recorder.reopen it)
      (Recorder.MkRState (Recorder.rstatus st) (Recorder.encodedFrameChan st)
         (Recorder.ffmpegIn st) (Recorder.rlogs st)
         (Recorder.rstdout st ++ ["Restarting Camera..."])
         (Recorder.rcamera st) (Recorder.rdevices st)).
Proof.
  intros [Hm Hs]. unfold Recorder.maintenance.
  assert ((Recorder.minute it =? 30) || (Recorder.minute it =? 0) = true) as ->.
  { destruct Hm as [->| ->]; [done|]. by rewrite orb_true_r. }
  by rewrite (proj2 (Nat.leb_le _ _) Hs).
Qed.

Lemma maintenance_outside it st : ¬ in_window it → Recorder.maintenance it st = st.
Proof.
  intros Hn. unfold Recorder.maintenance.
  destruct (Nat.eqb_spec (Recorder.minute it) 30) as [Hm|Hm];
    destruct (Nat.eqb_spec (Recorder.minute it) 0) as [Hz|Hz];
    destruct (Nat.leb_spec (Recorder.second it) 2) as [Hs|Hs]; simpl; try done.
  all: exfalso; apply Hn; split; auto.
Qed.

Lemma restart_stdout o st :
  Recorder.rstdout (Recorder.restartCamera o st) = Recorder.rstdout st.
Proof.
  unfold Recorder.restartCamera. destruct st as [s c fi lg so cam ds]; simpl.
  destruct cam, o; done.
Qed.

Lemma restart_ok_devices st :
  length (Recorder.rdevices (Recorder.restartCamera SetupOk st))
  = S (length (Recorder.rdevices st)).
Proof.
  unfold Recorder.restartCamera. destruct st as [s c fi lg so cam ds]; simpl.
  destruct cam; simpl; rewrite length_app, ?close_device_length; simpl; lia.
Qed.

Lemma loop_cons_ok it its st :
  length (Recorder.frame it) ≠ 0 → Recorder.write_err it = None →
  Recorder.broadcast_loop (it :: its) st = Recorder.broadcast_loop its (body it st).
Proof.
  intros Hnz Hw. simpl. by rewrite (proj2 (Nat.eqb_neq _ _) Hnz), Hw.
Qed.

Lemma loop_cons_empty it its st :
  length (Recorder.frame it) = 0 →
  Recorder.broadcast_loop (it :: its) st
  = Recorder.broadcast_loop its
      (Recorder.rlog "Received empty frame, skipping..."
         (Recorder.drain (Recorder.drained it) st)).
Proof. intros Hz. simpl. by rewrite (proj2 (Nat.eqb_eq _ _) Hz). Qed.

Lemma body_stdout it st :
  Recorder.rstdout (body it st)
  = Recorder.rstdout st ++ if decide (in_window it) then ["Restarting Camera..."] else [].
Proof.
  unfold body. case_decide as Hin.
  - rewrite maintenance_window, restart_stdout by done. simpl.
    f_equal. unfold Recorder.offer. by case_match.
  - rewrite maintenance_outside, app_nil_r by done.
    unfold Recorder.offer. by case_match.
Qed.

Lemma body_devices it st :
  Recorder.reopen it = SetupOk →
  length (Recorder.rdevices (body it st))
  = length (Recorder.rdevices st) + if decide (in_window it) then 1 else 0.
Proof.
  intros Hre. unfold body. case_decide as Hin.
  - rewrite maintenance_window, Hre, restart_ok_devices by done. simpl.
    match goal with |- context [Recorder.offer ?f ?x] =>
      destruct (offer_fields f x) as (_ & _ & _ & ->) end.
    simpl. lia.
  - rewrite maintenance_outside by done.
    match goal with |- context [Recorder.offer ?f ?x] =>
      destruct (offer_fields f x) as (_ & _ & _ & ->) end.
    simpl. lia.
Qed.

(** X9.  In the recording variant, while no write fails, the loop prints
    [Restarting Camera...] once for every non-empty frame received in
    minute 0 or 30 and second 0 to 2, and for no other frame; when every
    reopen succeeds each of these restarts opens one more device. *)
Theorem restart_for_every_frame_in_window its : ∀ st,
  Forall healthy its →
  Recorder.rstdout (Recorder.broadcast_loop its st).1
  = Recorder.rstdout st ++ replicate (length (filter restarting its)) "Restarting Camera..." ∧
  (Forall (λ it, Recorder.reopen it = SetupOk) its →
   length (Recorder.rdevices (Recorder.broadcast_loop its st).1)
   = length (Recorder.rdevices st) + length (filter restarting its)).
Proof.
  induction its as [|it its IH]; intros st Hh.
  - simpl. rewrite app_nil_r. split; [done|]. intros _. lia.
  - apply Forall_cons in Hh as [Hit Hh].
    destruct (decide (length (Recorder.frame it) = 0)) as [Hz|Hnz].
    + rewrite loop_cons_empty by done.
      rewrite filter_cons_False by (by intros [? _]).
      destruct (IH (Recorder.rlog "Received empty frame, skipping..."
                      (Recorder.drain (Recorder.drained it) st)) Hh) as [Hso Hdev].
      split; [done|]. intros [_ Hok]%Forall_cons. by apply Hdev.
    + destruct Hit as [?|Hw]; [done|]. rewrite loop_cons_ok by done.
      destruct (IH (body it st) Hh) as [Hso Hdev]. split.
      * rewrite Hso, body_stdout. case_decide as Hin.
        -- rewrite filter_cons_True by done. simpl. by rewrite <- app_assoc.
        -- rewrite filter_cons_False by (by intros [_ ?]). by rewrite app_nil_r.
      * intros [Hre Hok]%Forall_cons. rewrite (Hdev Hok), body_devices by done.
        case_decide as Hin.
        -- rewrite filter_cons_True by done. simpl. lia.
        -- rewrite filter_cons_False by (by intros [_ ?]). lia.
Qed.

(** X10.  In the recording variant, when no iteration falls into the
    restart window, the camera handle, the devices and the standard output
    are the same after the broadcaster as before, whatever is written or
    fails. *)
Theorem camera_untouched_outside_window pipe_err start_err its : ∀ st,
  Forall (λ it, ¬ in_window it) its →
  Recorder.rcamera (Recorder.frameBroadcaster pipe_err start_err its st).1
  = Recorder.rcamera st ∧
  Recorder.rdevices (Recorder.frameBroadcaster pipe_err start_err its st).1
  = Recorder.rdevices st ∧
  Recorder.rstdout (Recorder.frameBroadcaster pipe_err start_err its st).1
  = Recorder.rstdout st.
Proof.
  unfold Recorder.frameBroadcaster. destruct pipe_err; [done|]. destruct start_err; [done|].
  induction its as [|it its IH]; intros st Hout; [done|].
  apply Forall_cons in Hout as [Hit Hout]. simpl.
  destruct (Nat.eqb_spec (length (Recorder.frame it)) 0) as [Hz|Hnz].
  - by destruct (IH (Recorder.rlog "Received empty frame, skipping..."
                      (Recorder.drain (Recorder.drained it) st)) Hout) as (-> & -> & ->).
  - destruct (Recorder.write_err it); [done|].
    rewrite maintenance_outside by done.
    match goal with |- context [Recorder.broadcast_loop its ?s] =>
      destruct (IH s Hout) as (-> & -> & ->) end.
    unfold Recorder.offer. by case_match.
Qed.

(** ** The transcoding variant *)

Lemma restart_chan o st :
  Recorder.encodedFrameChan (Recorder.restartCamera o st) = Recorder.encodedFrameChan st.
Proof.
  unfold Recorder.restartCamera. destruct st as [s c fi lg so cam ds]; simpl.
  destruct cam, o; done.
Qed.

(** X11.  In the transcoding variant [encodedFrameChan] never holds more
    than 10 frames if it did not before, and what it holds afterwards is, in
    order, part of what it held before followed by the compressed frames of
    the iterations whose frame decodes and encodes; a frame that fails to
    decode or encode never reaches a viewer. *)
Theorem transcoded_channel_bounded_and_ordered {Image} Decode Encode its : ∀ st,
  (length (Recorder.encodedFrameChan st) ≤ 10 →
   length (Recorder.encodedFrameChan (Transcoder.frameBroadcaster Image Decode Encode its st)) ≤ 10) ∧
  Recorder.encodedFrameChan (Transcoder.frameBroadcaster Image Decode Encode its st)
    `sublist_of` Recorder.encodedFrameChan st
                 ++ omap (λ it, Transcoder.transcode Image Decode Encode (Transcoder.frame it)) its.
Proof.
  induction its as [|it its IH]; intros st.
  - simpl. by rewrite app_nil_r.
  - simpl. unfold Transcoder.transcode.
    destruct (Decode (Transcoder.frame it)) as [e|img].
    + match goal with |- context [Transcoder.frameBroadcaster Image Decode Encode its ?s] => destruct (IH s) as [Hlen Hsub] end.
      rewrite restart_chan in Hlen, Hsub. simpl in *. split.
      * intros H. apply Hlen. rewrite length_drop. lia.
      * etrans; [exact Hsub|]. apply sublist_app; [apply sublist_drop|done].
    + destruct (Encode img) as [e|c].
      * match goal with |- context [Transcoder.frameBroadcaster Image Decode Encode its ?s] => destruct (IH s) as [Hlen Hsub] end.
        rewrite restart_chan in Hlen, Hsub. simpl in *. split.
        -- intros H. apply Hlen. rewrite length_drop. lia.
        -- etrans; [exact Hsub|]. apply sublist_app; [apply sublist_drop|done].
      * match goal with |- context [Transcoder.frameBroadcaster Image Decode Encode its ?s] => destruct (IH s) as [Hlen Hsub] end.
        rewrite offer_chan in Hlen, Hsub. simpl in *. split.
        -- intros H. apply Hlen.
           destruct (Nat.ltb_spec (length (drop (Transcoder.drained it) (Recorder.encodedFrameChan st))) 10);
             [rewrite length_app; simpl; lia|].
           rewrite length_drop. lia.
        -- etrans; [exact Hsub|].
           destruct (length (drop (Transcoder.drained it) (Recorder.encodedFrameChan st)) <? 10).
           ++ rewrite <- app_assoc. apply sublist_app; [apply sublist_drop|done].
           ++ apply sublist_app; [apply sublist_drop|by apply sublist_cons].
Qed.

(** X12.  In the transcoding variant every frame that fails to decode or
    to encode restarts the camera: when every reopen succeeds, the loop opens
    one more device per such frame.  When every frame decodes and encodes,
    the camera handle and the devices are untouched. *)
Theorem restart_for_every_bad_frame {Image} Decode Encode its : ∀ st,
  (Forall (λ it, Transcoder.reopen it = SetupOk) its →
   length (Recorder.rdevices (Transcoder.frameBroadcaster Image Decode Encode its st))
   = length (Recorder.rdevices st)
     + length (filter (λ it, Transcoder.transcode Image Decode Encode (Transcoder.frame it) = None) its)) ∧
  (Forall (λ it, is_Some (Transcoder.transcode Image Decode Encode (Transcoder.frame it))) its →
   Recorder.rcamera (Transcoder.frameBroadcaster Image Decode Encode its st) = Recorder.rcamera st ∧
   Recorder.rdevices (Transcoder.frameBroadcaster Image Decode Encode its st) = Recorder.rdevices st).
Proof.
  induction its as [|it its IH]; intros st.
  - simpl. split; [intros _; lia|done].
  - simpl.
    destruct (Decode (Transcoder.frame it)) as [e|img] eqn:Hd.
    + rewrite filter_cons_True by (unfold Transcoder.transcode; by rewrite Hd).
      match goal with |- context [Transcoder.frameBroadcaster Image Decode Encode its ?s] => destruct (IH s) as (Hdev & _) end.
      split_and!.
      * intros [Hre Hok]%Forall_cons. rewrite (Hdev Hok), Hre, restart_ok_devices.
        simpl. lia.
      * intros [[c Hc] _]%Forall_cons. unfold Transcoder.transcode in Hc. by rewrite Hd in Hc.
    + destruct (Encode img) as [e|c] eqn:He.
      * rewrite filter_cons_True by (unfold Transcoder.transcode; by rewrite Hd, He).
        match goal with |- context [Transcoder.frameBroadcaster Image Decode Encode its ?s] => destruct (IH s) as (Hdev & _) end.
        split_and!.
        -- intros [Hre Hok]%Forall_cons. rewrite (Hdev Hok), Hre, restart_ok_devices.
           simpl. lia.
        -- intros [[c Hc] _]%Forall_cons. unfold Transcoder.transcode in Hc.
           by rewrite Hd, He in Hc.
      * rewrite filter_cons_False by (unfold Transcoder.transcode; by rewrite Hd, He).
        match goal with |- context [Transcoder.frameBroadcaster Image Decode Encode its ?s] => destruct (IH s) as (Hdev & Hcam) end.
        match type of Hdev with context [Recorder.offer ?f ?x] =>
          destruct (offer_fields f x) as (_ & _ & Hoc & Hod) end.
        rewrite Hod in Hdev. split_and!.
        -- intros [_ Hok]%Forall_cons. by rewrite (Hdev Hok).
        -- intros [_ Hok]%Forall_cons. destruct (Hcam Hok) as [-> ->].
           by rewrite Hoc, Hod.
Qed.

(** ** The viewers of the older variants share their frames *)

Lemma mjoin_insert_snoc (vs : list Shared.Viewer) i v v' f :
  vs !! i = Some v → Shared.vout v' = Shared.vout v ++ [f] →
  mjoin (Shared.vout <$> <[i := v']> vs) ≡ₚ mjoin (Shared.vout <$> vs) ++ [f].
Proof.
  intros Hi Hv. rewrite insert_take_drop by (by eapply lookup_lt_Some).
  rewrite <- (take_drop_middle vs i v Hi) at 3.
  rewrite !fmap_app, !fmap_cons, !join_app. simpl. rewrite Hv.
  rewrite <- !app_assoc. apply Permutation_app_head. apply Permutation_app_head.
  apply Permutation_app_comm.
Qed.

Lemma mjoin_insert_same (vs : list Shared.Viewer) i v v' :
  vs !! i = Some v → Shared.vout v' = Shared.vout v →
  mjoin (Shared.vout <$> <[i := v']> vs) = mjoin (Shared.vout <$> vs).
Proof.
  intros Hi Hv. rewrite insert_take_drop by (by eapply lookup_lt_Some).
  rewrite <- (take_drop_middle vs i v Hi) at 3.
  rewrite !fmap_app, !fmap_cons, !join_app. simpl. by rewrite Hv.
Qed.

Lemma dead_insert (vs : list Shared.Viewer) i v v' :
  vs !! i = Some v → Shared.alive v = true →
  length (filter (λ v, Shared.alive v = false) (<[i := v']> vs))
  = length (filter (λ v, Shared.alive v = false) vs)
    + (if Shared.alive v' then 0 else 1).
Proof.
  intros Hi Hv. rewrite insert_take_drop by (by eapply lookup_lt_Some).
  rewrite <- (take_drop_middle vs i v Hi) at 3.
  rewrite !filter_app, !length_app, !filter_cons.
  rewrite (decide_False (P := Shared.alive v = false)) by congruence.
  destruct (Shared.alive v'); [rewrite decide_False by done|rewrite decide_True by done];
    simpl; lia.
Qed.

Lemma sstep_inv a st st' : Shared.sstep a st = Some st' → Shared.sinv st → Shared.sinv st'.
Proof.
  intros H [Hp Ho Hs Hl Hc]. destruct a as [f| |i w]; simpl in H.
  - simplify_eq. unfold Shared.offer.
    destruct (Nat.ltb_spec (length (Shared.queue st)) 10); split; simpl; try done.
    + unfold Shared.delivered in *. simpl. rewrite !app_assoc. rewrite <- (app_assoc _ _ (Shared.queue st)).
      by apply Permutation_app_tail.
    + intros i v Hi. rewrite app_assoc. apply sublist_app; [by eapply Ho|done].
    + by apply suffix_app.
    + rewrite length_app. simpl. lia.
  - simplify_eq. split; simpl; try done.
    + unfold Shared.delivered in *. simpl. rewrite fmap_app, join_app. simpl.
      by rewrite app_nil_r.
    + intros i v Hi. apply lookup_app_Some in Hi as [Hi|[_ Hi]]; [by eapply Ho|].
      apply list_lookup_singleton_Some in Hi as [_ <-]. simpl.
      by apply suffix_is_sublist.
    + rewrite filter_app, length_app. simpl. lia.
  - unfold Shared.imageServ in H.
    destruct (Shared.viewers st !! i) as [v|] eqn:Hi; [|done]. simpl in H.
    destruct (Shared.alive v) eqn:Hal; [|done].
    destruct (Shared.queue st) as [|f rest] eqn:Hq; [done|].
    assert (∀ v', Shared.vout v' = Shared.vout v ∨ Shared.vout v' = Shared.vout v ++ [f] →
              ∀ j u, <[i := v']> (Shared.viewers st) !! j = Some u →
                Shared.vout u ++ rest `sublist_of` Shared.accepted st) as Hord.
    { intros v' Hv' j u Hj.
      apply list_lookup_insert_Some in Hj as [(-> & <- & _)|[_ Hj]].
      - specialize (Ho _ _ Hi). destruct Hv' as [->| ->].
        + etrans; [|exact Ho]. apply sublist_app; [done|by apply sublist_cons].
        + by rewrite <- app_assoc.
      - etrans; [|exact (Ho _ _ Hj)]. apply sublist_app; [done|by apply sublist_cons]. }
    destruct w as [|e|e]; simplify_eq; split; simpl.
    all: try (apply Hord; simpl; by auto).
    all: try (by eapply suffix_cons_l).
    all: try (simpl in Hc; lia).
    all: unfold Shared.delivered in *; simpl.
    + rewrite (mjoin_insert_snoc _ i v) by done. rewrite <- Hp, <- !app_assoc.
      apply Permutation_app_head. simpl. apply Permutation_middle.
    + rewrite (dead_insert _ i v) by done. simpl. lia.
    + rewrite (mjoin_insert_same _ i v) by done. rewrite <- Hp, <- !app_assoc.
      apply Permutation_app_head. apply Permutation_app_head. done.
    + rewrite (dead_insert _ i v) by done. rewrite length_app. simpl. lia.
    + rewrite (mjoin_insert_same _ i v) by done. rewrite <- Hp, <- !app_assoc.
      apply Permutation_app_head. apply Permutation_app_head. done.
    + rewrite (dead_insert _ i v) by done. rewrite length_app. simpl. lia.
Qed.

(** X13.  In the older variants all viewers receive from the one channel
    [encodedFrameChan], so in every state they reach: each frame the channel
    accepted is either still queued, or was written by exactly one viewer,
    or was received by a viewer whose write failed; no frame is written by
    two viewers.  What a viewer has written followed by what is queued
    respects the order of acceptance, the queue holds the frames accepted
    last, every viewer that returned lost exactly one frame, and the queue
    holds at most 10 frames. *)
Theorem each_frame_to_one_viewer acts st :
  Shared.srun acts Shared.sinit = Some st →
  Shared.delivered st ++ Shared.lost st ++ Shared.queue st ≡ₚ Shared.accepted st ∧
  Shared.delivered st ⊆+ Shared.accepted st ∧
  Shared.queue st `suffix_of` Shared.accepted st ∧
  (∀ i v, Shared.viewers st !! i = Some v →
     Shared.vout v ++ Shared.queue st `sublist_of` Shared.accepted st) ∧
  length (Shared.lost st)
  = length (filter (λ v, Shared.alive v = false) (Shared.viewers st)) ∧
  length (Shared.queue st) ≤ 10.
Proof.
  intros Hrun.
  assert (Shared.sinv st) as [Hp Ho Hs Hl Hc].
  { assert (Shared.sinv Shared.sinit) as H0.
    { split; simpl; [done|by intros ? ? ?|by exists []|done|lia]. }
    revert H0 Hrun. generalize Shared.sinit.
    induction acts as [|a acts IH]; intros s0 H0 H; simpl in H.
    - by simplify_eq.
    - destruct (Shared.sstep a s0) as [s1|] eqn:Hs; [|done]. simpl in H.
      eapply IH; [|done]. by eapply sstep_inv. }
  split_and!; try done.
  rewrite <- Hp. apply submseteq_inserts_r. done.
Qed.

(** ** The list of videos *)

Lemma list_ascii_app s1 s2 :
  String.list_ascii_of_string (s1 +:+ s2) = String.list_ascii_of_string s1 ++ String.list_ascii_of_string s2.
Proof. induction s1 as [|c s1 IH]; simpl; [done|]. by rewrite IH. Qed.

Lemma string_of_app l1 l2 :
  String.string_of_list_ascii (l1 ++ l2) = String.string_of_list_ascii l1 +:+ String.string_of_list_ascii l2.
Proof. induction l1 as [|c l1 IH]; simpl; [done|]. by rewrite IH. Qed.

Lemma ext_from_plain s : ∀ rest acc,
  Forall Videos.plain s →
  Videos.ext_from (s ++ rest) acc = Videos.ext_from rest (rev s ++ acc).
Proof.
  induction s as [|c s IH]; intros rest acc Hs; [done|].
  apply Forall_cons in Hs as [[Hdot Hsl] Hs]. simpl.
  rewrite (proj2 (Ascii.eqb_neq _ _) Hsl), (proj2 (Ascii.eqb_neq _ _) Hdot).
  rewrite IH by done. by rewrite <- app_assoc.
Qed.

Lemma ext_from_suffix rp : ∀ acc,
  ∃ pre, rev rp ++ acc = pre ++ Videos.ext_from rp acc.
Proof.
  induction rp as [|c rp IH]; intros acc; simpl.
  - exists acc. by rewrite app_nil_r.
  - destruct (Ascii.eqb c "/"%char); [exists (rev rp ++ [c] ++ acc); by rewrite app_nil_r, <- app_assoc|].
    destruct (Ascii.eqb c "."%char).
    + exists (rev rp). by rewrite <- app_assoc.
    + destruct (IH (c :: acc)) as [pre Hpre]. exists pre. by rewrite <- Hpre, <- app_assoc.
Qed.

(** [filepath.Ext]: the extension is a suffix of the path; it is the dot and
    what follows it when what follows has neither dot nor slash; it is
    empty when the last element of the path has no dot. *)
Lemma Ext_spec :
  (∀ path, ∃ stem, path = stem +:+ Videos.Ext path) ∧
  (∀ stem e, Forall Videos.plain (String.list_ascii_of_string e) →
     Videos.Ext (stem +:+ "." +:+ e) = "." +:+ e) ∧
  (∀ dir base, Forall Videos.plain (String.list_ascii_of_string base) →
     Videos.Ext (dir +:+ "/" +:+ base) = "" ∧ Videos.Ext base = "").
Proof.
  split_and!.
  - intros path. unfold Videos.Ext.
    destruct (ext_from_suffix (rev (String.list_ascii_of_string path)) []) as [pre Hpre].
    rewrite rev_involutive, app_nil_r in Hpre.
    exists (String.string_of_list_ascii pre).
    rewrite <- string_of_app, <- Hpre. by rewrite String.string_of_list_ascii_of_string.
  - intros stem e He. unfold Videos.Ext.
    rewrite !list_ascii_app. simpl. rewrite rev_app_distr. simpl.
    rewrite <- app_assoc. rewrite ext_from_plain by (by apply Forall_rev).
    simpl. rewrite rev_involutive, app_nil_r.
    by rewrite String.string_of_list_ascii_of_string.
  - intros dir base Hb. unfold Videos.Ext. split.
    + rewrite !list_ascii_app. simpl. rewrite rev_app_distr. simpl.
      rewrite <- app_assoc. rewrite ext_from_plain by (by apply Forall_rev). done.
    + rewrite <- (app_nil_r (rev _)). rewrite ext_from_plain by (by apply Forall_rev). done.
Qed.

Lemma videoFiles_filter files :
  Videos.videoFiles files
  = Videos.Name <$> filter (λ e, Videos.listed e = true) files.
Proof.
  unfold Videos.videoFiles.
  assert (∀ acc, foldl (λ acc file, if Videos.listed file then acc ++ [Videos.Name file] else acc)
                   acc files
                 = acc ++ (Videos.Name <$> filter (λ e, Videos.listed e = true) files)) as H.
  { induction files as [|e files IH]; intros acc; simpl; [by rewrite app_nil_r|].
    rewrite IH. destruct (Videos.listed e) eqn:Hl.
    - rewrite filter_cons_True by done. simpl. by rewrite <- app_assoc.
    - rewrite filter_cons_False by congruence. done. }
  by rewrite H.
Qed.

Lemma listed_spec e :
  Videos.listed e = true ↔
  (Videos.IsDir e = false ∧ Videos.Ext (Videos.Name e) = ".mkv") ∨
  Videos.Ext (Videos.Name e) = ".zip".
Proof.
  unfold Videos.listed. rewrite orb_true_iff, andb_true_iff, negb_true_iff.
  by rewrite !String.eqb_eq.
Qed.

(** X14.  The loop of [listVideosHandler] lists names of the directory in
    the order of [os.ReadDir], and lists an entry exactly when it is not a
    directory and has the extension [.mkv], or has the extension [.zip]: as
    [&&] binds tighter than [||], a directory named [*.zip] is listed, while
    a directory named [*.mkv] is not. *)
Theorem videoFiles_lists_mkv_files_and_zip_entries files :
  Videos.videoFiles files `sublist_of` Videos.Name <$> files ∧
  (∀ x, x ∈ Videos.videoFiles files ↔
     ∃ e, e ∈ files ∧ Videos.Name e = x ∧
       ((Videos.IsDir e = false ∧ Videos.Ext (Videos.Name e) = ".mkv") ∨
        Videos.Ext (Videos.Name e) = ".zip")) ∧
  (∀ e, e ∈ files → Videos.IsDir e = true → Videos.Ext (Videos.Name e) = ".zip" →
     Videos.Name e ∈ Videos.videoFiles files) ∧
  (∀ e, Videos.IsDir e = true → Videos.Ext (Videos.Name e) = ".mkv" →
     Videos.videoFiles [e] = []).
Proof.
  rewrite videoFiles_filter. split_and!.
  - apply fmap_sublist, sublist_filter.
  - intros x. rewrite list_elem_of_fmap. split.
    + intros (e & -> & He). apply list_elem_of_filter in He as [Hl He].
      exists e. split_and!; try done. by apply listed_spec.
    + intros (e & He & <- & Hc). exists e. split; [done|].
      apply list_elem_of_filter. split; [|done]. by apply listed_spec.
  - intros e He _ Hz. apply list_elem_of_fmap. exists e. split; [done|].
    apply list_elem_of_filter. split; [|done]. apply listed_spec. by right.
  - intros e Hd Hm. rewrite videoFiles_filter.
    rewrite filter_cons_False; [done|].
    rewrite listed_spec. intros [[? _]|Hz]; [congruence|]. by rewrite Hm in Hz.
Qed.

Lemma videoFiles_elem files x :
  x ∈ Videos.videoFiles files ↔
  ∃ e, e ∈ files ∧ Videos.Name e = x ∧ Videos.listed e = true.
Proof.
  rewrite videoFiles_filter, list_elem_of_fmap. split.
  - intros (e & -> & He). apply list_elem_of_filter in He as [Hl He]. by exists e.
  - intros (e & He & <- & Hl). exists e. split; [done|]. by apply list_elem_of_filter.
Qed.

(** X15.  What [listVideosHandler] lists, by name: every name listed ends
    in [.mkv] or in [.zip]; a file, not a directory, whose name ends in
    [.mkv] is listed, and so is every entry whose name ends in [.zip]; an
    entry whose name has no dot is never listed. *)
Theorem listed_names_end_in_mkv_or_zip files :
  (∀ x, x ∈ Videos.videoFiles files →
     ∃ stem, x = stem +:+ ".mkv" ∨ x = stem +:+ ".zip") ∧
  (∀ e stem, e ∈ files → Videos.IsDir e = false → Videos.Name e = stem +:+ ".mkv" →
     Videos.Name e ∈ Videos.videoFiles files) ∧
  (∀ e stem, e ∈ files → Videos.Name e = stem +:+ ".zip" →
     Videos.Name e ∈ Videos.videoFiles files) ∧
  (∀ e, e ∈ files → Forall Videos.plain (String.list_ascii_of_string (Videos.Name e)) →
     Videos.Name e ∉ Videos.videoFiles files).
Proof.
  destruct Ext_spec as (Hsuf & Hdot & Hnone).
  assert (Forall Videos.plain (String.list_ascii_of_string "mkv")) as Hmkv.
  { repeat constructor; discriminate. }
  assert (Forall Videos.plain (String.list_ascii_of_string "zip")) as Hzip.
  { repeat constructor; discriminate. }
  split_and!.
  - intros x (e & _ & <- & Hl)%videoFiles_elem.
    destruct (Hsuf (Videos.Name e)) as [stem Hstem]. exists stem.
    apply listed_spec in Hl as [[_ Hx]|Hx]; rewrite Hx in Hstem; auto.
  - intros e stem He Hd Hn. apply videoFiles_elem. exists e. split_and!; try done.
    apply listed_spec. left. split; [done|]. rewrite Hn. apply (Hdot stem "mkv" Hmkv).
  - intros e stem He Hn. apply videoFiles_elem. exists e. split_and!; try done.
    apply listed_spec. right. rewrite Hn. apply (Hdot stem "zip" Hzip).
  - intros e He Hp (e' & _ & Hn & Hl)%videoFiles_elem.
    destruct (Hnone "" _ Hp) as [_ Hext]. rewrite <- Hn in Hext.
    apply listed_spec in Hl as [[_ Hx]|Hx]; by rewrite Hext in Hx.
Qed.


(** ** Subscribe and unsubscribe *)

Lemma tail_lookup {A} (l : list A) x n : n = length l → (l ++ [x]) !! n = Some x.
Proof. intros ->. by rewrite lookup_app_r, Nat.sub_diag. Qed.

Lemma tail_insert {A} (l : list A) x y n : n = length l → <[n := y]> (l ++ [x]) = l ++ [y].
Proof. intros ->. by rewrite insert_app_r_alt, Nat.sub_diag. Qed.

Lemma run_cons act acts σ σ1 :
  step act σ = Some σ1 → run (act :: acts) σ = run acts σ1.
Proof. intros H. simpl. by rewrite H. Qed.

Ltac flat :=
  cbv [set_status set_cameraDevice set_devices set_heap set_clients set_mutex set_bcast
       set_sessions add_log add_stdout set_spc add_out upd_sess connect
       status cameraDevice devices heap clients mutex bcast sessions logs stdout
       responses published spc chan addr out].

(** X16.  In every running state the program reaches with the mutex free,
    a viewer that connects, registers, is cancelled and runs its deferred
    clean-up without interruption takes nine steps, none of which blocks or
    panics; afterwards [clients] is what it was, the viewer's channel is
    closed and empty, the mutex is free again, and the only other trace is
    the two lines on the standard output. *)
Theorem subscribe_unsubscribe_roundtrip p o l acts σ a :
  run acts (main p o l) = Some σ → status σ = Running → mutex σ = None →
  run (visit a (length (sessions σ))) σ
  = Some (MkState Running (cameraDevice σ) (devices σ)
            (heap σ ++ [MkChan [] 30 true []]) (clients σ) None (bcast σ)
            (sessions σ ++ [MkSession SExit (length (heap σ)) a []])
            (logs σ)
            (stdout σ ++ ["Client connected " +:+ a; "Client disconnected " +:+ a])
            (responses σ) (published σ)).
Proof.
  intros Hrun Hst Hm. pose proof (reachable_inv _ _ _ _ _ Hrun) as Hinv.
  pose proof (shape_len _ (inv_s _ Hinv)) as Hlen.
  assert (length (sessions σ) ∉ clients σ) as Hnew.
  { intros Hin%clients_lt; [lia|apply Hinv]. }
  destruct σ as [st cam ds hp cl mx b ss lg so rs pb]. simpl in Hst, Hm, Hlen, Hnew. subst st mx.
  unfold visit. cbn [replicate app].
  erewrite run_cons; [|reflexivity]. flat.
  do 8 (erewrite run_cons;
        [|unfold step, imageServ; flat;
          repeat (progress (rewrite ?Hlen, ?tail_lookup, ?tail_insert by done; simpl; flat));
          reflexivity]).
  simpl. rewrite <- Hlen in Hnew |- *. f_equal. f_equal.
  - clear -Hnew. set_solver.
  - by rewrite <- app_assoc.
Qed.

(** ** From the camera to a viewer *)

(** X17.  From the camera to a viewer: in a running state the program
    reaches in which the broadcaster waits on the empty output channel of a
    streaming device, the mutex is free and a viewer waits in its loop on
    its empty channel, a non-empty frame the device delivers is received,
    published and written to that viewer as the next part, by the steps of
    the broadcaster followed by one step of the viewer; none of them blocks
    or panics, and the viewer's channel is empty again. *)
Theorem frame_reaches_viewer p o l acts σ d dev i s ch f :
  run acts (main p o l) = Some σ → status σ = Running → mutex σ = None →
  bcast σ = BRange d → devices σ !! d = Some dev →
  streaming dev = true → output dev = [] →
  sessions σ !! i = Some s → spc s = SLoop →
  heap σ !! i = Some ch → buf ch = [] → length f ≠ 0 →
  ∃ σ', run (ACapture d f :: ABcast 0 :: publish_acts σ ++ [ASess i IoOk]) σ = Some σ' ∧
    status σ' = Running ∧
    sessions σ' !! i = Some (add_out f s) ∧
    ∃ ch', heap σ' !! i = Some ch' ∧ buf ch' = [].
Proof.
  intros Hrun Hst Hm Hb Hd Hstr Hout Hi Hpc Hh Hbuf Hf.
  pose proof (reachable_inv _ _ _ _ _ Hrun) as Hinv.
  destruct (reachable_cap _ _ _ _ _ Hrun _ _ Hh) as [Hcap _].
  pose proof (shape_chan _ (inv_s _ Hinv) _ _ Hi) as Hci.
  assert (i ∈ clients σ) as Hreg.
  { apply (reg_clients _ (inv_r _ Hinv)). exists s. by rewrite Hpc. }
  assert (closed ch = false) as Hopen.
  { destruct (closed ch) eqn:Hc; [|done].
    apply (reg_closed _ (inv_r _ Hinv) _ _ _ Hi Hh) in Hc. congruence. }
  set (σ1 := set_devices (<[d := MkDevice [f] true]> (devices σ)) σ).
  assert (step (ACapture d f) σ = Some σ1) as H1.
  { unfold step, capture. rewrite Hst, Hd. simpl. by rewrite Hstr, Hout. }
  set (σ2 := set_bcast (BLock d f)
               (set_devices (<[d := MkDevice [] true]> (devices σ1)) σ1)).
  assert (step (ABcast 0) σ1 = Some σ2) as H2.
  { unfold step, frameBroadcaster.
    change (status σ1) with (status σ). change (bcast σ1) with (bcast σ).
    rewrite Hst, Hb.
    change (devices σ1) with (<[d := MkDevice [f] true]> (devices σ)).
    rewrite list_lookup_insert_eq by (by eapply lookup_lt_Some). simpl.
    by rewrite (proj2 (Nat.eqb_neq _ _) Hf). }
  assert (inv σ2) as Hinv2.
  { eapply step_inv; [exact H2|]. eapply step_inv; [exact H1|exact Hinv]. }
  set (σ3 := set_bcast (BFan d f (clients σ2))
               (set_mutex (Some OBcast) (add_published f σ2))).
  assert (step (ABcast 0) σ2 = Some σ3) as H3.
  { unfold step, frameBroadcaster. simpl. by rewrite Hst, Hm. }
  destruct (fan_run (elements (clients σ2)) σ3 d f (clients σ2))
    as (σ4 & Hrun4 & Hinv4 & Hst4 & Hb4 & Hm4 & Hcl4 & Hss4 & Hheap);
    [by eapply step_inv|done|done|apply NoDup_elements|apply elem_of_elements|].
  destruct (Hheap i ch Hh) as (ch' & Hh' & Hch').
  rewrite decide_True in Hch' by (by apply elem_of_elements).
  destruct Hch' as (Hcap' & Hclosed' & Hbuf').
  rewrite Hbuf, Hcap in Hbuf'. simpl in Hbuf'.
  set (σ5 := set_bcast (BRange d) (set_mutex None σ4)).
  assert (step (ABcast 0) σ4 = Some σ5) as H5.
  { unfold step, frameBroadcaster. rewrite Hst4, Hb4, Hm4. simpl.
    by rewrite decide_True. }
  set (σ6 := upd_sess i (add_out f s)
               (set_heap (<[i := MkChan [] (cap ch') (closed ch') (offered ch')]> (heap σ5))
                  σ5)).
  assert (step (ASess i IoOk) σ5 = Some σ6) as H6.
  { unfold step, imageServ.
    change (status σ5) with (status σ4). change (sessions σ5) with (sessions σ4).
    change (heap σ5) with (heap σ4). rewrite Hst4, Hss4.
    change (sessions σ3) with (sessions σ). rewrite Hi. simpl.
    rewrite Hpc, Hci, Hh'. simpl. by rewrite Hbuf'. }
  exists σ6. split_and!.
  - rewrite (run_cons _ _ _ _ H1), (run_cons _ _ _ _ H2).
    change (publish_acts σ) with (publish_acts σ2). unfold publish_acts.
    cbn [app]. rewrite (run_cons _ _ _ _ H3).
    rewrite <- app_assoc, run_app, Hrun4. cbn [app].
    change (run [ABcast 0; ASess i IoOk] σ4 = Some σ6).
    rewrite (run_cons _ _ _ _ H5), (run_cons _ _ _ _ H6). done.
  - done.
  - change (sessions σ6) with (<[i := add_out f s]> (sessions σ4)).
    apply list_lookup_insert_eq. rewrite Hss4. by eapply lookup_lt_Some.
  - exists (MkChan [] (cap ch') (closed ch') (offered ch')). split; [|done].
    change (heap σ6) with (<[i := MkChan [] (cap ch') (closed ch') (offered ch')]> (heap σ4)).
    apply list_lookup_insert_eq. by eapply lookup_lt_Some.
Qed.

(** ** The further theorems at concrete inputs *)

Lemma queues_bounded_witness :
  run acts_fan (main ":8080" SetupOk None) = Some in_fan_out ∧
  heap in_fan_out !! 0 = Some (make_chan 30) ∧
  cap (make_chan 30) = 30 ∧ length (buf (make_chan 30)) ≤ 30.
Proof.
  split; [vm_compute; reflexivity|]. split; [reflexivity|].
  apply (queues_bounded ":8080" SetupOk None acts_fan in_fan_out 0 (make_chan 30));
    [vm_compute; reflexivity|reflexivity].
Defined.

Lemma mutual_exclusion_witness :
  run acts_fan (main ":8080" SetupOk None) = Some in_fan_out ∧
  (∀ i s, sessions in_fan_out !! i = Some s → crit (spc s) = true →
     in_fan (bcast in_fan_out) = false).
Proof.
  split; [vm_compute; reflexivity|].
  destruct (mutual_exclusion ":8080" SetupOk None acts_fan in_fan_out) as (_ & H & _);
    [vm_compute; reflexivity|exact H].
Defined.



Lemma captured_frames_published_once_witness :
  run acts_next idle = Some next ∧ bsrc (bcast idle) = Some 0 ∧
  backlog 0 next = backlog 0 idle ++ mjoin (captured 0 <$> acts_next) ∧
  published idle `prefix_of` published next ∧
  published next `prefix_of` backlog 0 idle ++ mjoin (captured 0 <$> acts_next).
Proof.
  split; [vm_compute; reflexivity|]. split; [reflexivity|].
  apply (captured_frames_published_once acts_next idle next 0);
    [vm_compute; reflexivity|reflexivity].
Defined.

Lemma session_never_returns_witness :
  run acts_fan (main ":8080" SetupOk None) = Some in_fan_out ∧
  run acts_after in_fan_out = Some starved ∧
  sessions in_fan_out !! 0 = Some (MkSession SLoop 0 "10.0.0.2:5000" []) ∧
  ∃ s', sessions starved !! 0 = Some s' ∧
    advances (MkSession SLoop 0 "10.0.0.2:5000" []) s' ∧
    (6 ≤ rank SLoop → 0 ∉ clients starved) ∧
    (SLoop = SExit → spc s' = SExit ∧
       ∃ ch, heap starved !! 0 = Some ch ∧ closed ch = true).
Proof.
  split; [vm_compute; reflexivity|]. split; [vm_compute; reflexivity|].
  split; [reflexivity|].
  apply (session_never_returns ":8080" SetupOk None acts_fan acts_after in_fan_out starved 0
           (MkSession SLoop 0 "10.0.0.2:5000" []));
    [vm_compute; reflexivity|vm_compute; reflexivity|reflexivity].
Defined.

Lemma restart_for_every_frame_in_window_witness :
  Forall healthy its_window ∧
  Recorder.rstdout (Recorder.broadcast_loop its_window rec0).1
  = Recorder.rstdout rec0
    ++ replicate (length (filter restarting its_window)) "Restarting Camera...".
Proof.
  assert (Forall healthy its_window) as Hh.
  { repeat constructor; by right. }
  split; [exact Hh|].
  destruct (restart_for_every_frame_in_window its_window rec0 Hh) as [H _]. exact H.
Defined.

Lemma camera_untouched_outside_window_witness :
  Forall (λ it, ¬ in_window it) its_quiet ∧
  Recorder.rcamera (Recorder.frameBroadcaster None None its_quiet rec0).1
  = Recorder.rcamera rec0 ∧
  Recorder.rdevices (Recorder.frameBroadcaster None None its_quiet rec0).1
  = Recorder.rdevices rec0 ∧
  Recorder.rstdout (Recorder.frameBroadcaster None None its_quiet rec0).1
  = Recorder.rstdout rec0.
Proof.
  assert (Forall (λ it, ¬ in_window it) its_quiet) as Hq.
  { repeat constructor; intros [[?|?] _]; discriminate. }
  split; [exact Hq|].
  apply (camera_untouched_outside_window None None its_quiet rec0 Hq).
Defined.

Lemma each_frame_to_one_viewer_witness :
  Shared.srun acts_shared Shared.sinit = Some shared_end ∧
  Shared.delivered shared_end ++ Shared.lost shared_end ++ Shared.queue shared_end
    ≡ₚ Shared.accepted shared_end.
Proof.
  split; [reflexivity|].
  destruct (each_frame_to_one_viewer acts_shared shared_end) as (H & _);
    [reflexivity|exact H].
Defined.

Lemma subscribe_unsubscribe_roundtrip_witness :
  run acts_lock (main ":8080" SetupOk None) = Some at_lock ∧
  status at_lock = Running ∧ mutex at_lock = None ∧
  run (visit "10.0.0.3:5001" 1) at_lock
  = Some (MkState Running (Some 0) [MkDevice [] true]
            [make_chan 30; MkChan [] 30 true []] {[0]} None (BLock 0 f1)
            [MkSession SLoop 0 "10.0.0.2:5000" [];
             MkSession SExit 1 "10.0.0.3:5001" []]
            ["Serving images on [:8080/stream]"]
            ["Client connected 10.0.0.2:5000"; "Client connected 10.0.0.3:5001";
             "Client disconnected 10.0.0.3:5001"]
            [] []).
Proof.
  split; [vm_compute; reflexivity|]. split; [reflexivity|]. split; [reflexivity|].
  apply (subscribe_unsubscribe_roundtrip ":8080" SetupOk None acts_lock at_lock
           "10.0.0.3:5001"); [vm_compute; reflexivity|reflexivity..].
Defined.

Lemma recorder_channel_bounded_and_ordered_witness :
  length (Recorder.encodedFrameChan rec0) ≤ 10 ∧
  length (Recorder.encodedFrameChan
            (Recorder.frameBroadcaster None None its_quiet rec0).1) ≤ 10.
Proof.
  assert (length (Recorder.encodedFrameChan rec0) ≤ 10) as H0 by (simpl; lia).
  split; [exact H0|].
  destruct (recorder_channel_bounded_and_ordered None None its_quiet rec0) as [H _].
  exact (H H0).
Defined.

Lemma transcoded_channel_bounded_and_ordered_witness :
  length (Recorder.encodedFrameChan rec0) ≤ 10 ∧
  length (Recorder.encodedFrameChan
            (Transcoder.frameBroadcaster Frame decode_nonempty encode_short its_jpeg rec0))
  ≤ 10.
Proof.
  assert (length (Recorder.encodedFrameChan rec0) ≤ 10) as H0 by (simpl; lia).
  split; [exact H0|].
  destruct (transcoded_channel_bounded_and_ordered decode_nonempty encode_short its_jpeg rec0)
    as [H _].
  exact (H H0).
Defined.

Lemma restart_for_every_bad_frame_witness :
  Forall (λ it, Transcoder.reopen it = SetupOk) its_jpeg ∧
  length (Recorder.rdevices
            (Transcoder.frameBroadcaster Frame decode_nonempty encode_short its_jpeg rec0))
  = length (Recorder.rdevices rec0)
    + length (filter (λ it, Transcoder.transcode Frame decode_nonempty encode_short
                              (Transcoder.frame it) = None) its_jpeg).
Proof.
  assert (Forall (λ it, Transcoder.reopen it = SetupOk) its_jpeg) as Hok.
  { repeat constructor. }
  split; [exact Hok|].
  destruct (restart_for_every_bad_frame decode_nonempty encode_short its_jpeg rec0) as [H _].
  exact (H Hok).
Defined.

Lemma videoFiles_lists_mkv_files_and_zip_entries_witness :
  Videos.MkDirEntry "old.zip" true ∈ listing ∧
  Videos.IsDir (Videos.MkDirEntry "old.zip" true) = true ∧
  Videos.Ext (Videos.Name (Videos.MkDirEntry "old.zip" true)) = ".zip" ∧
  Videos.Name (Videos.MkDirEntry "old.zip" true) ∈ Videos.videoFiles listing.
Proof.
  assert (Videos.MkDirEntry "old.zip" true ∈ listing) as Hin.
  { unfold listing. set_solver. }
  split; [exact Hin|]. split; [reflexivity|]. split; [reflexivity|].
  destruct (videoFiles_lists_mkv_files_and_zip_entries listing) as (_ & _ & H & _).
  exact (H _ Hin eq_refl eq_refl).
Defined.

Lemma listed_names_end_in_mkv_or_zip_witness :
  Videos.MkDirEntry "2024-05-01.mkv" false ∈ listing ∧
  Videos.IsDir (Videos.MkDirEntry "2024-05-01.mkv" false) = false ∧
  Videos.Name (Videos.MkDirEntry "2024-05-01.mkv" false) = "2024-05-01" +:+ ".mkv" ∧
  Videos.Name (Videos.MkDirEntry "2024-05-01.mkv" false) ∈ Videos.videoFiles listing.
Proof.
  assert (Videos.MkDirEntry "2024-05-01.mkv" false ∈ listing) as Hin.
  { unfold listing. set_solver. }
  split; [exact Hin|]. split; [reflexivity|]. split; [reflexivity|].
  destruct (listed_names_end_in_mkv_or_zip listing) as (_ & H & _).
  exact (H _ "2024-05-01" Hin eq_refl eq_refl).
Defined.

Lemma frame_reaches_viewer_witness :
  run [ABcast 0; AConnect "10.0.0.2:5000"; ASess 0 IoOk; ASess 0 IoOk; ASess 0 IoOk]
    (main ":8080" SetupOk None) = Some waiting_viewer ∧
  status waiting_viewer = Running ∧ mutex waiting_viewer = None ∧
  bcast waiting_viewer = BRange 0 ∧
  devices waiting_viewer !! 0 = Some (MkDevice [] true) ∧
  sessions waiting_viewer !! 0 = Some (MkSession SLoop 0 "10.0.0.2:5000" []) ∧
  heap waiting_viewer !! 0 = Some (make_chan 30) ∧ length f1 ≠ 0 ∧
  ∃ σ', run (ACapture 0 f1 :: ABcast 0 :: publish_acts waiting_viewer ++ [ASess 0 IoOk])
          waiting_viewer = Some σ' ∧
    status σ' = Running ∧
    sessions σ' !! 0 = Some (MkSession SLoop 0 "10.0.0.2:5000" [f1]) ∧
    ∃ ch', heap σ' !! 0 = Some ch' ∧ buf ch' = [].
Proof.
  split; [vm_compute; reflexivity|]. do 6 (split; [reflexivity|]).
  split; [discriminate|].
  apply (frame_reaches_viewer ":8080" SetupOk None
           [ABcast 0; AConnect "10.0.0.2:5000"; ASess 0 IoOk; ASess 0 IoOk; ASess 0 IoOk]
           waiting_viewer 0 (MkDevice [] true) 0 (MkSession SLoop 0 "10.0.0.2:5000" [])
           (make_chan 30) f1);
    [vm_compute; reflexivity|reflexivity..|discriminate].
Defined.
